(** * ProbeBuilder (app.js): the operation tree and the G-code emitter

    A shallow embedding of the two parts of [app.js] that carry the
    program's logic:

    - the tree store ([walk], [getNode], [getParent], [removeNode],
      [insertNode], [isDescendant], [moveNode], [deleteNode]) over the
      forest [state.tree];
    - the emitter ([createEmitContext], [emitNode], [emitChildren],
      [generateGCode]) together with the tool registry [TOOLS];
    - the rest of the store and what the page builds from it ([addNode],
      [updateParams], [reorderSibling], [setTargetParent], the two toggles,
      [eachContainer], [countTree], [buildMoveOptions], the values of the
      "Add to" dropdown) and the label function [toLabel].

    Conventions.  JavaScript arrays are lists, [Set]s of ids are [gset]s,
    the [params] object of a node is a finite map.  A function that mutates
    [state] in place takes the old value and returns the new one.  Calls to
    [save()] and [renderAll()] only write to localStorage and to the DOM and
    are left out. *)

From stdpp Require Import gmap strings list pretty.

Set Warnings "-clear-no-such-hyp".

(** ** Nodes *)

(** A node object.  [children] is [None] when the object has no [children]
    property (the code tests [node.children] for truthiness, and an empty
    array is truthy, so "no property" and "empty array" are kept apart).
    Parameter values are kept as the text that a template literal prints for
    them: the emitter never computes with a parameter, it only interpolates
    it or compares it with a string constant (a number is the text that
    [String] gives for it, a blank number field the empty string; the name of
    a folder is text, as its text field makes it).  The display fields
    [name], [icon], [category] and [description] are copied from the registry
    when a node is made and never read by the functions below. *)
Local Unset Elimination Schemes.
Inductive Node := mkNode {
  id : string;
  toolId : string;
  params : gmap string string;
  children : option (list Node)
}.
Local Set Elimination Schemes.

(** Assignment [node.children = cs]. *)
Definition setChildren (node : Node) (cs : list Node) : Node :=
  mkNode (id node) (toolId node) (params node) (Some cs).

(** [node.children || []] *)
Definition childrenOrEmpty (node : Node) : list Node :=
  default [] (children node).

(** Induction over a node and, through [Forall], over its children. *)
Section NodeInduction.
Variable P : Node -> Prop.
Hypothesis P_leaf : forall i t p, P (mkNode i t p None).
Hypothesis P_container :
  forall i t p cs, Forall P cs -> P (mkNode i t p (Some cs)).

Fixpoint Node_ind (n : Node) : P n :=
  match n with
  | mkNode i t p None => P_leaf i t p
  | mkNode i t p (Some cs) =>
      P_container i t p cs
        ((fix all (l : list Node) : Forall P l :=
            match l with
            | [] => Forall_nil_2 P
            | c :: l' => Forall_cons_2 P c l' (Node_ind c) (all l')
            end) cs)
  end.
End NodeInduction.

(** The nodes of a subtree and of a forest in document order (a node before
    its children, children left to right), and the ids they carry. *)
Fixpoint subtree (n : Node) : list Node :=
  n :: match children n with
       | Some cs => flat_map subtree cs
       | None => []
       end.

Definition nodes (lst : list Node) : list Node := flat_map subtree lst.

Definition ids (lst : list Node) : list string := id <$> nodes lst.

(** ** Loops with an early exit *)

(** [for (const x of l) { const r = f(x); if (r) return r; } return null] *)
Definition firstSome {A B} (f : A -> option B) : list A -> option B :=
  fix go (l : list A) : option B :=
    match l with
    | [] => None
    | x :: l' => match f x with Some r => Some r | None => go l' end
    end.

(** The same loop when [f] also changes the element it succeeds on: the
    result comes with the list in which that element is replaced. *)
Definition firstHit {A R} (f : A -> option (R * A)) : list A -> option (R * list A) :=
  fix go (l : list A) : option (R * list A) :=
    match l with
    | [] => None
    | x :: l' =>
        match f x with
        | Some (r, x') => Some (r, x' :: l')
        | None => match go l' with
                  | Some (r, l'') => Some (r, x :: l'')
                  | None => None
                  end
        end
    end.

(** ** Tree utilities *)

(** [walk(list, fn, parent)]: document-order traversal that stops at the
    first node on which [fn] answers [true].  The callbacks of [getNode],
    [getParent] and [isDescendant] record the node (or its parent) in a
    captured variable before answering [true]; here the walk returns that
    pair, and [None] stands for the result [false]. *)
Fixpoint walkNode (fn : Node -> option Node -> bool) (parent : option Node)
    (node : Node) {struct node} : option (Node * option Node) :=
  if fn node parent then Some (node, parent)
  else match children node with
       | Some cs => firstSome (walkNode fn (Some node)) cs
       | None => None
       end.

Definition walk (lst : list Node) (fn : Node -> option Node -> bool)
    (parent : option Node) : option (Node * option Node) :=
  firstSome (walkNode fn parent) lst.

(** [n => n.id === id] *)
Definition hasId (i : string) (n : Node) (_ : option Node) : bool :=
  bool_decide (id n = i).

Definition getNode (tree : list Node) (i : string) : option Node :=
  fst <$> walk tree (hasId i) None.

Definition getParent (tree : list Node) (i : string) : option Node :=
  walk tree (hasId i) None ≫= snd.

(** The effect on the forest of a write through the reference that
    [getNode(i)] returns: [f] is applied to the first node in document order
    whose id is [i].  The result pairs the node found with the new forest. *)
Fixpoint mutateNode (i : string) (f : Node -> Node) (node : Node)
    {struct node} : option (Node * Node) :=
  if bool_decide (id node = i) then Some (node, f node)
  else match children node with
       | Some cs =>
           match firstHit (mutateNode i f) cs with
           | Some (r, cs') => Some (r, setChildren node cs')
           | None => None
           end
       | None => None
       end.

Definition mutate (tree : list Node) (i : string) (f : Node -> Node)
  : option (Node * list Node) :=
  firstHit (mutateNode i f) tree.

(** [removeNode(id, list)].  [list.findIndex] and [list.splice(i, 1)[0]]
    are [list_find] and [delete] in [removeHere]; the loop that follows
    descends into every node that has a [children] array.  [None] is the
    result [null], which leaves every array as it was. *)
Definition removeHere (i : string) (lst : list Node) : option (Node * list Node) :=
  match list_find (fun n => id n = i) lst with
  | Some (k, n) => Some (n, delete k lst)
  | None => None
  end.

Fixpoint removeBelow (i : string) (n : Node) {struct n} : option (Node * Node) :=
  match children n with
  | Some cs =>
      match removeHere i cs with
      | Some (r, cs') => Some (r, setChildren n cs')
      | None =>
          match firstHit (removeBelow i) cs with
          | Some (r, cs') => Some (r, setChildren n cs')
          | None => None
          end
      end
  | None => None
  end.

Definition removeNode (i : string) (lst : list Node) : option (Node * list Node) :=
  match removeHere i lst with
  | Some hit => Some hit
  | None => firstHit (removeBelow i) lst
  end.

(** The [index] argument: an integer, or the default [Infinity]. *)
Inductive Index := Idx (z : Z) | Infinity.

(** [if (index > len) index = len] *)
Definition clampTop (index : Index) (len : nat) : Z :=
  match index with
  | Infinity => Z.of_nat len
  | Idx z => if bool_decide (Z.of_nat len < z)%Z then Z.of_nat len else z
  end.

(** [list.splice(start, 0, x)]: a negative [start] counts from the end of the
    array and stops at its front, a [start] past the end is the end. *)
Definition spliceIn (lst : list Node) (start : Z) (x : Node) : list Node :=
  let len := Z.of_nat (length lst) in
  let k := if bool_decide (start < 0)%Z then Z.max (len + start) 0
           else Z.min start len in
  take (Z.to_nat k) lst ++ x :: drop (Z.to_nat k) lst.

(** [parentId === "root" || !parentId]; the empty string is the falsy string. *)
Definition isRoot (parentId : string) : bool :=
  bool_decide (parentId = "root") || bool_decide (parentId = "").

(** The body of [insertNode] after [parent] was found. *)
Definition adopt (node : Node) (index : Index) (parent : Node) : Node :=
  let cs := childrenOrEmpty parent in
  setChildren parent (spliceIn cs (clampTop index (length cs)) node).

Definition insertNode (node : Node) (parentId : string) (index : Index)
    (tree : list Node) : list Node :=
  if isRoot parentId then spliceIn tree (clampTop index (length tree)) node
  else match getNode tree parentId with
       | None => tree
       | Some _ =>
           match mutate tree parentId (adopt node index) with
           | Some (_, tree') => tree'
           | None => tree
           end
       end.

Definition isDescendant (tree : list Node) (maybeAncestorId i : string) : bool :=
  let anc := getNode tree maybeAncestorId in
  let below := match anc with Some a => childrenOrEmpty a | None => [] end in
  bool_decide (is_Some (walk below (hasId i) None)).

(** ** State and mutations *)

Record State := mkState {
  tree : list Node;
  collapsed : gset string;
  expanded : gset string;
  targetParentId : string;
  showGCode : bool
}.

Definition setTree (s : State) (t : list Node) : State :=
  mkState t (collapsed s) (expanded s) (targetParentId s) (showGCode s).

Definition moveNode (i targetParent : string) (index : Index) (s : State) : State :=
  if bool_decide (i = targetParent) then s
  else if negb (bool_decide (targetParent = "root"))
          && isDescendant (tree s) i targetParent then s
  else match removeNode i (tree s) with
       | None => s
       | Some (node, rest) => setTree s (insertNode node targetParent index rest)
       end.

(** [deleteNode(id)]; [ok] is the answer of [window.confirm]. *)
Definition deleteNode (i : string) (ok : bool) (s : State) : State :=
  match getNode (tree s) i with
  | None => s
  | Some _ =>
      if ok then
        mkState (match removeNode i (tree s) with
                 | Some (_, rest) => rest
                 | None => tree s
                 end)
                (collapsed s ∖ {[ i ]})
                (expanded s ∖ {[ i ]})
                (targetParentId s) (showGCode s)
      else s
  end.

(** ** Emission context *)

(** The data fields of the object built by [createEmitContext].  [indent]
    and [loopDepth] only ever grow from 0 by steps of 0 or 1; [labelSeed] is
    a JavaScript number that starts at 1000 and is only incremented, so it
    stays an integer (exactly so below 2^53). *)
Record EmitContext := createEmitContext {
  indent : nat;
  labelSeed : N;
  loopDepth : nat
}.

(** ["  ".repeat(n)] *)
Fixpoint repeat2 (n : nat) : string :=
  match n with
  | O => ""
  | S n' => "  " +:+ repeat2 n'
  end.

(** The methods, as functions of the object they are called on ([this]). *)
Definition line (this : EmitContext) (s : string) : string :=
  repeat2 (indent this) +:+ s.

(** [(this.labelSeed++).toString()]: the label, and [this] after the
    increment. *)
Definition nextLabel (this : EmitContext) : string * EmitContext :=
  (pretty (labelSeed this),
   createEmitContext (indent this) (labelSeed this + 1)%N (loopDepth this)).

Definition loopIndex (this : EmitContext) : nat :=
  Nat.min (loopDepth this + 1) 9.

Definition indented (this : EmitContext) (delta : nat) : EmitContext :=
  createEmitContext (indent this + delta) (labelSeed this)
    (loopDepth this + (if bool_decide (0 < delta) then 1 else 0)).

(** ** Tools registry *)

(** A [gcode] callback is called by [emitNode] as
    [def.gcode(node, {...ctx, nextLabel: () => ctx.nextLabel(),
                              loopIndex: () => ctx.loopIndex()})].
    The second argument is a new object: the spread copies [indent],
    [labelSeed], [loopDepth], [line] and [indented] out of [ctx] at the time
    of the call, and the two arrow functions reach back to [ctx] itself.
    Nothing ever assigns to the copy.  A callback therefore gets

    - [copy]: the field values of the spread copy, on which [indented] works
      when the callback passes the object on to [emitChildren];
    - the object [ctx] as a state that [nextLabel] reads and updates and
      [loopIndex] reads: a callback is a state transformer on it.

    Its reference to the global [emitChildren], always used as
    [emitChildren(op, ctx, delta)] with its own two arguments, is the first
    parameter [kids], to be applied to the object and to [delta]. *)
Definition Callback : Type :=
  (EmitContext -> nat -> list string) -> Node -> EmitContext ->
  EmitContext -> list string * EmitContext.

(** An entry of [TOOLS]; [key] is its [id].  The fields [name], [icon],
    [desc], [category] and [parameterOptions] are for display only. *)
Record Tool := mkTool {
  key : string;
  container : bool;
  defaultParams : gmap string string;
  gcode : Callback
}.

(** [`${op.params.k}`]: a missing property prints as [undefined]. *)
Definition param (op : Node) (k : string) : string :=
  default "undefined" (params op !! k).

(** [const { k = d } = op.params] followed by [`${k}`] *)
Definition paramOr (op : Node) (k d : string) : string :=
  default d (params op !! k).

(** [String.prototype.toUpperCase] on the ASCII letters; parameter text is
    taken to be ASCII. *)
Definition upper (c : Ascii.ascii) : Ascii.ascii :=
  let n := Ascii.nat_of_ascii c in
  if bool_decide (97 <= n <= 122) then Ascii.ascii_of_nat (n - 32) else c.

Fixpoint toUpperCase (s : string) : string :=
  match s with
  | EmptyString => EmptyString
  | String c s' => String (upper c) (toUpperCase s')
  end.

Definition folder_gcode : Callback := fun kids op copy ctx =>
  let nm := toUpperCase (match params op !! "name" with
                         | Some s => if bool_decide (s = "") then "SECTION" else s
                         | None => "SECTION"
                         end) in
  ([ ";===== " +:+ nm +:+ " =====" ]
   ++ kids copy 0
   ++ [ ";===== END " +:+ nm +:+ " ====="; "" ], ctx).

Definition if_block_gcode : Callback := fun kids op copy ctx =>
  let left := param op "left" in
  let cmp := param op "op" in
  let right := param op "right" in
  let '(lid, ctx') := nextLabel ctx in
  ([ "IF [" +:+ left +:+ " " +:+ cmp +:+ " " +:+ right +:+ "] GOTO " +:+ lid;
     "; (IF false → skip children)";
     "GOTO " +:+ lid +:+ "_END";
     "N" +:+ lid ]
   ++ kids copy 1
   ++ [ "N" +:+ lid +:+ "_END"; "" ], ctx').

Definition while_block_gcode : Callback := fun kids op copy ctx =>
  let left := param op "left" in
  let cmp := param op "op" in
  let right := param op "right" in
  let i := pretty (loopIndex ctx) in
  ([ "WHILE [" +:+ left +:+ " " +:+ cmp +:+ " " +:+ right +:+ "] DO" +:+ i ]
   ++ kids copy 1
   ++ [ "END" +:+ i; "" ], ctx).

Definition set_work_offset_gcode : Callback := fun _ op _ ctx =>
  let s := param op "offset" in
  let s := if bool_decide (params op !! "offset" = Some "G154")
           then s +:+ " P" +:+ param op "P" else s in
  ([ s; "" ], ctx).

Definition tool_change_gcode : Callback := fun _ op _ ctx =>
  ([ "T" +:+ param op "toolNumber" +:+ " M6";
     "S" +:+ param op "spindleSpeed" +:+ " M3";
     param op "coolant";
     "" ], ctx).

Definition rapid_move_gcode : Callback := fun _ op _ ctx =>
  ([ "G0 X" +:+ param op "X" +:+ " Y" +:+ param op "Y" +:+ " Z" +:+ param op "Z";
     "" ], ctx).

Definition single_touch_axis_gcode : Callback := fun _ op _ ctx =>
  let ax := toUpperCase (paramOr op "axis" "X") in
  ([ "G65 P9811 " +:+ ax +:+ paramOr op "distance" "-10"
       +:+ " F" +:+ paramOr op "feed" "10";
     "" ], ctx).

(** [parts.filter(Boolean).join(" ")]: every part but the [null] one is a
    non-empty string. *)
Definition web_pocket_gcode : Callback := fun _ op _ ctx =>
  let mode := params op !! "mode" in
  let isPocket :=
    bool_decide (mode = Some "pocket")
    || (bool_decide (mode = Some "auto")
        && match params op !! "Z" with
           | Some z => negb (bool_decide (z = ""))
           | None => false
           end) in
  let parts :=
    [ Some "G65 P9812";
      Some ("X" +:+ param op "X");
      Some ("Y" +:+ param op "Y");
      if isPocket then Some ("Z" +:+ param op "Z") else None;
      Some ("W" +:+ param op "W");
      Some ("L" +:+ param op "L");
      Some ("F" +:+ param op "feed") ] in
  ([ String.concat " " (omap Datatypes.id parts); "" ], ctx).

Definition safe_approach_gcode : Callback := fun _ op _ ctx =>
  ([ "G65 P9810 X" +:+ param op "X" +:+ " Y" +:+ param op "Y"
       +:+ " Z" +:+ param op "Z" +:+ " F" +:+ param op "feed";
     "" ], ctx).

Definition TOOLS : list Tool :=
  [ mkTool "folder" true
      (list_to_map [("name", "New Section"); ("note", "")]) folder_gcode;
    mkTool "if-block" true
      (list_to_map [("left", "#100"); ("op", "GT"); ("right", "#101")])
      if_block_gcode;
    mkTool "while-block" true
      (list_to_map [("left", "#100"); ("op", "LT"); ("right", "10")])
      while_block_gcode;
    mkTool "set-work-offset" false
      (list_to_map [("offset", "G54"); ("P", "1")]) set_work_offset_gcode;
    mkTool "tool-change" false
      (list_to_map [("toolNumber", "1"); ("spindleSpeed", "1000"); ("coolant", "M8")])
      tool_change_gcode;
    mkTool "rapid-move" false
      (list_to_map [("X", "0"); ("Y", "0"); ("Z", "25")]) rapid_move_gcode;
    mkTool "single-touch-axis" false
      (list_to_map [("axis", "X"); ("distance", "-10"); ("feed", "10")])
      single_touch_axis_gcode;
    mkTool "web-pocket" false
      (list_to_map [("mode", "auto"); ("X", "0"); ("Y", "0"); ("Z", "");
                    ("W", "20"); ("L", "15"); ("feed", "10")])
      web_pocket_gcode;
    mkTool "safe-approach" false
      (list_to_map [("X", "0"); ("Y", "0"); ("Z", "25"); ("feed", "1000")])
      safe_approach_gcode ].

(** [Object.fromEntries(TOOLS.map(t => [t.id, t]))]; the keys of [TOOLS] are
    pairwise distinct. *)
Definition TOOL_BY_ID : gmap string Tool :=
  list_to_map ((fun t => (key t, t)) <$> TOOLS).

(** [TOOL_BY_ID] is a plain object, so a lookup also finds the members that
    every object inherits from [Object.prototype]: functions, and for
    [__proto__] the prototype object.  They are truthy and have neither a
    [gcode] nor a [container] property. *)
Definition inheritedNames : list string :=
  [ "constructor"; "hasOwnProperty"; "isPrototypeOf"; "propertyIsEnumerable";
    "toLocaleString"; "toString"; "valueOf"; "__proto__";
    "__defineGetter__"; "__defineSetter__";
    "__lookupGetter__"; "__lookupSetter__" ].

Inductive Def := Entry (t : Tool) | Inherited.

(** [TOOL_BY_ID[k]], with [None] for [undefined]. *)
Definition lookupTool (k : string) : option Def :=
  match TOOL_BY_ID !! k with
  | Some t => Some (Entry t)
  | None => if bool_decide (k ∈ inheritedNames) then Some Inherited else None
  end.

(** [!!TOOL_BY_ID[n.toolId]?.container] *)
Definition isContainer (n : Node) : bool :=
  match lookupTool (toolId n) with
  | Some (Entry t) => container t
  | _ => false
  end.

(** ** G-code emitter *)

(** [arr.map(l => (l ? ctx.line(l) : ctx.line("")))] *)
Definition indentAll (ctx : EmitContext) (arr : list string) : list string :=
  (fun l => if bool_decide (l = "") then line ctx "" else line ctx l) <$> arr.

(** [emitNode(node, ctx)]: the lines, and the object [ctx] after the call.
    [def.gcode ? def.gcode(node, {...}) : []] is the inner match; every
    callback of the registry returns an array.  The loop of [emitChildren]
    over the node's own children is written out inside, so that the
    recursion is on the node. *)
Fixpoint emitNode (node : Node) (ctx : EmitContext) {struct node}
  : list string * EmitContext :=
  match lookupTool (toolId node) with
  | None => ([ line ctx ("; Unknown node " +:+ toolId node) ], ctx)
  | Some def =>
      let kids := fun (w : EmitContext) (indentDelta : nat) =>
        match children node with
        | Some cs =>
            flat_map (fun child => fst (emitNode child (indented w indentDelta))) cs
        | None => []
        end in
      let '(raw, ctx') :=
        match def with
        | Entry t => gcode t kids node ctx ctx
        | Inherited => ([], ctx)
        end in
      (indentAll ctx' raw, ctx')
  end.

(** [emitChildren(node, ctx, indentDelta)]: every child gets a context of its
    own, made by [ctx.indented(indentDelta)]; what [emitNode] does to that
    object is not seen by anyone else. *)
Definition emitChildren (node : Node) (ctx : EmitContext) (indentDelta : nat)
  : list string :=
  flat_map (fun child => fst (emitNode child (indented ctx indentDelta)))
    (childrenOrEmpty node).

(** [for (const n of state.tree) body.push(...emitNode(n, ctx))]: one object
    [ctx] serves all root nodes in turn. *)
Fixpoint emitRoots (tree : list Node) (ctx : EmitContext)
  : list string * EmitContext :=
  match tree with
  | [] => ([], ctx)
  | n :: rest =>
      let '(out, ctx1) := emitNode n ctx in
      let '(body, ctx2) := emitRoots rest ctx1 in
      (out ++ body, ctx2)
  end.

Definition newline : string := String (Ascii.ascii_of_nat 10) EmptyString.

(** [today] is the text of [new Date().toLocaleDateString()]. *)
Definition header (today : string) : list string :=
  [ ";Renishaw Probe Routine - Generated by Probe Builder";
    ";Program: PROBE_ROUTINE.NC";
    ";Date: " +:+ today;
    "";
    ";Initialize program";
    "G0 G17 G40 G49 G80 G90";
    "" ].

Definition footer : list string :=
  [ ";End of probe routine";
    "G0 G53 Z0.";
    "M30";
    "" ].

Definition generateGCode (today : string) (tree : list Node) : string :=
  let ctx := createEmitContext 0 1000 0 in
  let body := fst (emitRoots tree ctx) in
  String.concat newline (header today ++ body ++ footer).

(** ** The rest of the tree store *)

(** [walk] with a callback that has effects: [fn] updates a state of type
    [S] (the variables it captures) and answers whether the walk stops.
    [untilTrue] is the loop [for (const x of l) if (f(x)) return true]. *)
Definition untilTrue {S A} (f : A -> S -> S * bool) : list A -> S -> S * bool :=
  fix go (l : list A) (s : S) : S * bool :=
    match l with
    | [] => (s, false)
    | x :: l' => let '(s1, stop) := f x s in
                 if stop then (s1, true) else go l' s1
    end.

Fixpoint visitNode {S} (fn : Node -> option Node -> S -> S * bool)
    (parent : option Node) (node : Node) (s : S) {struct node} : S * bool :=
  let '(s1, stop) := fn node parent s in
  if stop then (s1, true)
  else match children node with
       | Some cs => untilTrue (visitNode fn (Some node)) cs s1
       | None => (s1, false)
       end.

Definition walkWith {S} (lst : list Node)
    (fn : Node -> option Node -> S -> S * bool) (parent : option Node) (s : S)
  : S * bool :=
  untilTrue (visitNode fn parent) lst s.

(** [countTree(list)]: the callback counts every node in [total] and every
    node whose kind is no container in [ops]; it returns [undefined], so the
    walk never stops early.  The result is the pair [(ops, total)]. *)
Definition countTree (lst : list Node) : nat * nat :=
  fst (walkWith lst
         (fun n _ '(ops, total) =>
            ((if isContainer n then ops else S ops, S total), false))
         None (0, 0)).

(** [eachContainer(fn, list)], as the sequence of nodes that [fn] is called
    with. *)
Fixpoint eachContainerNode (n : Node) : list Node :=
  (if isContainer n then [n] else [])
  ++ match children n with
     | Some cs => flat_map eachContainerNode cs
     | None => []
     end.

Definition eachContainer (lst : list Node) : list Node :=
  flat_map eachContainerNode lst.

(** [addNode(toolId, parentId)]; [fresh] is the id that [uid()] returns.  A
    name that [TOOL_BY_ID] only inherits passes the test [if (!t) return];
    its [id], [defaultParams] and [container] are [undefined], and a
    [toolId] that is [undefined] acts in every later lookup and template as
    the text [undefined]. *)
Definition newNode (def : Def) (fresh : string) : Node :=
  match def with
  | Entry t =>
      mkNode fresh (key t) (defaultParams t) (if container t then Some [] else None)
  | Inherited => mkNode fresh "undefined" ∅ None
  end.

Definition addNode (tool parentId fresh : string) (s : State) : State :=
  match lookupTool tool with
  | None => s
  | Some def => setTree s (insertNode (newNode def fresh) parentId Infinity (tree s))
  end.

(** [n.params = { ...n.params, ...patch }]: the patch wins. *)
Definition patched (patch : gmap string string) (n : Node) : Node :=
  mkNode (id n) (toolId n) (patch ∪ params n) (children n).

Definition updateParams (i : string) (patch : gmap string string) (s : State) : State :=
  match getNode (tree s) i with
  | None => s
  | Some _ =>
      match mutate (tree s) i (patched patch) with
      | Some (_, tree') => setTree s tree'
      | None => s
      end
  end.

(** The body of [reorderSibling] once [list] is known: the array that holds
    the node.  [dir] is -1 or +1 at the two buttons. *)
Definition shift (i : string) (dir : Z) (lst : list Node) : list Node :=
  match list_find (fun n => id n = i) lst with
  | None => lst
  | Some (k, m) =>
      let j := (Z.of_nat k + dir)%Z in
      if bool_decide (j < 0)%Z || bool_decide (Z.of_nat (length lst) <= j)%Z
      then lst
      else spliceIn (delete k lst) j m
  end.

(** The effect on the forest of a write to the array that [getParent(i)]
    designates: [parent.children] for the parent of the first node in
    document order whose id is [i], the root array when that node has no
    parent.  [f] is applied to that array; [None] when no node has the id.
    [atSiblingsFrom] scans the rest of the array [whole] from position [k]:
    an element that is the node stops the scan with [f whole], an element
    that holds the node below it is replaced by its rewritten self. *)
Section AtSiblings.
Context {A : Type} (isIt : A -> bool) (below : A -> option A)
  (f : list A -> list A) (whole : list A).

Fixpoint atSiblingsFrom (rest : list A) (k : nat) {struct rest} : option (list A) :=
  match rest with
  | [] => None
  | x :: rest' =>
      if isIt x then Some (f whole)
      else match below x with
           | Some x' => Some (<[k := x']> whole)
           | None => atSiblingsFrom rest' (S k)
           end
  end.
End AtSiblings.

Definition atSiblings {A} (isIt : A -> bool) (below : A -> option A)
    (f : list A -> list A) (l : list A) : option (list A) :=
  atSiblingsFrom isIt below f l l 0.

(** An element that the scan passes: it neither is the node nor holds it. *)
Definition passes {A} (isIt : A -> bool) (below : A -> option A) (x : A) : Prop :=
  isIt x = false /\ below x = None.

Fixpoint siblingsBelow (i : string) (f : list Node -> list Node) (n : Node)
    {struct n} : option Node :=
  match children n with
  | Some cs =>
      match atSiblings (fun x => bool_decide (id x = i)) (siblingsBelow i f) f cs with
      | Some cs' => Some (setChildren n cs')
      | None => None
      end
  | None => None
  end.

Definition withSiblings (tree : list Node) (i : string)
    (f : list Node -> list Node) : option (list Node) :=
  atSiblings (fun x => bool_decide (id x = i)) (siblingsBelow i f) f tree.

Definition reorderSibling (i : string) (dir : Z) (s : State) : State :=
  match withSiblings (tree s) i (shift i dir) with
  | Some tree' => setTree s tree'
  | None => s
  end.

(** [state.targetParentId = id || "root"] *)
Definition setTargetParent (i : string) (s : State) : State :=
  mkState (tree s) (collapsed s) (expanded s)
    (if bool_decide (i = "") then "root" else i) (showGCode s).

(** [set.has(id) ? set.delete(id) : set.add(id)] *)
Definition toggle (i : string) (set : gset string) : gset string :=
  if bool_decide (i ∈ set) then set ∖ {[ i ]} else set ∪ {[ i ]}.

Definition toggleCollapsed (i : string) (s : State) : State :=
  mkState (tree s) (toggle i (collapsed s)) (expanded s)
    (targetParentId s) (showGCode s).

Definition toggleExpanded (i : string) (s : State) : State :=
  mkState (tree s) (collapsed s) (toggle i (expanded s))
    (targetParentId s) (showGCode s).

(** [buildMoveOptions(nodeId)], as the targets that the buttons pass to
    [moveNode(nodeId, target)]: the root, then every container that is
    neither the node nor below it. *)
Definition buildMoveOptions (tree : list Node) (nodeId : string) : list string :=
  "root" ::
  (id <$> filter (fun c => id c <> nodeId /\ isDescendant tree nodeId (id c) = false)
            (eachContainer tree)).

(** The values of the "Add to" dropdown that [refreshTargetParentDropdown]
    builds. *)
Definition targetOptions (tree : list Node) : list string :=
  "root" :: (id <$> eachContainer tree).


(** [const list = parent ? parent.children : state.tree] in
    [reorderSibling], with [parent = getParent(id)]. *)
Definition siblingList (tree : list Node) (i : string) : list Node :=
  match getParent tree i with
  | Some p => childrenOrEmpty p
  | None => tree
  end.

(** The fields of a node that are its own: all but its children. *)
Definition own (n : Node) : string * string * gmap string string :=
  (id n, toolId n, params n).

(** The mutations of the store as data: what a click or an edit in the page
    calls, with the arguments of the call.  [AddNode] carries the id that
    [uid()] draws, [DeleteNode] the answer given to the confirmation. *)
Inductive Action :=
  | AddNode (tool parentId fresh : string)
  | UpdateParams (i : string) (patch : gmap string string)
  | MoveNode (i target : string) (index : Index)
  | DeleteNode (i : string) (ok : bool)
  | ReorderSibling (i : string) (dir : Z)
  | SetTargetParent (i : string)
  | ToggleCollapsed (i : string)
  | ToggleExpanded (i : string).

Definition perform (a : Action) (s : State) : State :=
  match a with
  | AddNode tool parentId fresh => addNode tool parentId fresh s
  | UpdateParams i patch => updateParams i patch s
  | MoveNode i target index => moveNode i target index s
  | DeleteNode i ok => deleteNode i ok s
  | ReorderSibling i dir => reorderSibling i dir s
  | SetTargetParent i => setTargetParent i s
  | ToggleCollapsed i => toggleCollapsed i s
  | ToggleExpanded i => toggleExpanded i s
  end.

Definition run (acts : list Action) (s : State) : State :=
  foldl (fun s a => perform a s) s acts.

(** The id drawn by [uid()] is not in use. *)
Definition freshFor (a : Action) (s : State) : Prop :=
  match a with
  | AddNode _ _ fresh => fresh ∉ ids (tree s)
  | _ => True
  end.

Fixpoint freshRun (acts : list Action) (s : State) : Prop :=
  match acts with
  | [] => True
  | a :: rest => freshFor a s /\ freshRun rest (perform a s)
  end.

(** ** Labels of the editor fields *)

(** [/[A-Z]/] *)
Definition isCapital (c : Ascii.ascii) : bool :=
  let n := Ascii.nat_of_ascii c in bool_decide (65 <= n <= 90).

Definition blank : Ascii.ascii := Ascii.ascii_of_nat 32.

(** [.replace(/([A-Z])/g, " $1")] *)
Fixpoint spaceCapitals (s : string) : string :=
  match s with
  | EmptyString => EmptyString
  | String c s' =>
      if isCapital c then String blank (String c (spaceCapitals s'))
      else String c (spaceCapitals s')
  end.

(** [.replace(/^./, s => s.toUpperCase())]; a line break in front, which
    [.] does not match, is its own upper case. *)
Definition capitalize (s : string) : string :=
  match s with
  | EmptyString => EmptyString
  | String c s' => String (upper c) s'
  end.

(** [toLabel(key)], for keys in ASCII as those of [UI_SCHEMAS]. *)
Definition toLabel (key : string) : string := capitalize (spaceCapitals key).

(** The number of capital letters of a text, and the text without its
    blanks. *)
Fixpoint capitals (s : string) : nat :=
  match s with
  | EmptyString => 0
  | String c s' => (if isCapital c then 1 else 0) + capitals s'
  end.

Fixpoint dropBlanks (s : string) : string :=
  match s with
  | EmptyString => EmptyString
  | String c s' =>
      if bool_decide (c = blank) then dropBlanks s' else String c (dropBlanks s')
  end.

(** ** The callbacks of the lookups, as written *)

(** [getNode] and [getParent] hand [walk] a callback that assigns to a
    variable of the enclosing function and answers [true] at the first node
    with the id; the variable is the state of the walk here, and the
    function returns it. *)
Definition getNodeByWalk (tree : list Node) (i : string) : option Node :=
  fst (walkWith tree
         (fun n _ out => if bool_decide (id n = i) then (Some n, true) else (out, false))
         None None).

Definition getParentByWalk (tree : list Node) (i : string) : option Node :=
  fst (walkWith tree
         (fun n parent p => if bool_decide (id n = i) then (parent, true) else (p, false))
         None None).
(** ** Sample data *)

(** The demo forest of [maybeSeed], with readable ids in place of the random
    ones of [uid()]: a folder "Setup A" holding a work offset and a single
    touch, a WHILE loop holding a web/pocket cycle, and a safe approach. *)
Definition seedOffset : Node :=
  mkNode "op_n1" "set-work-offset" (list_to_map [("offset", "G54"); ("P", "1")]) None.

Definition seedTouch : Node :=
  mkNode "op_n2" "single-touch-axis"
    (list_to_map [("axis", "X"); ("distance", "-10"); ("feed", "10")]) None.

Definition seedFolder : Node :=
  mkNode "op_f1" "folder" (list_to_map [("name", "Setup A"); ("note", "")])
    (Some [seedOffset; seedTouch]).

Definition seedPocket : Node :=
  mkNode "op_w1" "web-pocket"
    (list_to_map [("mode", "auto"); ("X", "0"); ("Y", "0"); ("Z", "");
                  ("W", "20"); ("L", "15"); ("feed", "10")]) None.

Definition seedLoop : Node :=
  mkNode "op_loop" "while-block"
    (list_to_map [("left", "#100"); ("op", "LT"); ("right", "3")])
    (Some [seedPocket]).

Definition seedSafe : Node :=
  mkNode "op_s1" "safe-approach"
    (list_to_map [("X", "0"); ("Y", "0"); ("Z", "25"); ("feed", "1000")]) None.

Definition seedTree : list Node := [seedFolder; seedLoop; seedSafe].

Definition seedState : State := mkState seedTree ∅ ∅ "root" false.

(** A node as [addNode] makes it for the rapid-move tool. *)
Definition rapidMove (i : string) : Node :=
  mkNode i "rapid-move" (list_to_map [("X", "0"); ("Y", "0"); ("Z", "25")]) None.

(** An IF block as [addNode] makes it, holding [cs]. *)
Definition ifBlock (i : string) (cs : list Node) : Node :=
  mkNode i "if-block"
    (list_to_map [("left", "#100"); ("op", "GT"); ("right", "#101")]) (Some cs).

(** ** Vocabulary of the statements *)

(** [d] is the id of a node strictly below a node whose id is [a]. *)
Definition descendantOf (t : list Node) (a d : string) : Prop :=
  exists n, n ∈ nodes t /\ id n = a /\ d ∈ ids (childrenOrEmpty n).

(** The sequence [insertNode] writes into: the root sequence, or the
    children of the node that [parentId] names. *)
Definition destination (t : list Node) (parentId : string) : option (list Node) :=
  if isRoot parentId then Some t else childrenOrEmpty <$> getNode t parentId.

(** The text that a callback hands back for a node, before [emitNode] puts
    its own indentation in front of every line. *)
Definition rawLines (node : Node) (ctx : EmitContext) : list string :=
  match lookupTool (toolId node) with
  | None => [ "; Unknown node " +:+ toolId node ]
  | Some (Entry t) => fst (gcode t (emitChildren node) node ctx ctx)
  | Some Inherited => []
  end.

(** [raw] behind [k] units of indentation. *)
Definition atLevel (k : nat) (raw : string) : string := repeat2 k +:+ raw.

(** The number of blanks a line starts with. *)
Fixpoint leadingSpaces (s : string) : nat :=
  match s with
  | String c s' => if bool_decide (Ascii.nat_of_ascii c = 32) then S (leadingSpaces s') else 0
  | EmptyString => 0
  end.

(** The body of the program when the label counter of the root context
    stands at [seed]. *)
Fixpoint bodyFrom (seed : N) (t : list Node) : list string :=
  match t with
  | [] => []
  | n :: rest =>
      fst (emitNode n (createEmitContext 0 seed 0))
      ++ bodyFrom (if bool_decide (toolId n = "if-block") then seed + 1 else seed)%N rest
  end.

(** * Properties *)

(** ** Loops with an early exit *)

Section Loops.
Context {A B R : Type}.
Implicit Types (f : A -> option B) (g : A -> option (R * A)) (l : list A).

Lemma firstSome_None f l :
  firstSome f l = None <-> Forall (fun x => f x = None) l.
Proof.
  induction l as [|x l IH]; simpl.
  - split; auto.
  - destruct (f x) eqn:E.
    + split; [discriminate|]. intros H%Forall_cons_1. destruct H; congruence.
    + rewrite IH. split; [by constructor|]. by intros [_ ?]%Forall_cons_1.
Qed.

Lemma firstSome_Some f l r :
  firstSome f l = Some r ->
  exists l1 x l2, l = l1 ++ x :: l2 /\ Forall (fun y => f y = None) l1 /\ f x = Some r.
Proof.
  induction l as [|x l IH]; simpl; [discriminate|].
  destruct (f x) eqn:E.
  - intros [= <-]. exists [], x, l. auto.
  - intros (l1 & y & l2 & -> & H1 & H2)%IH.
    exists (x :: l1), y, l2. auto.
Qed.

Lemma firstHit_None g l :
  firstHit g l = None <-> Forall (fun x => g x = None) l.
Proof.
  induction l as [|x l IH]; simpl.
  - split; auto.
  - destruct (g x) as [[r x']|] eqn:E.
    + split; [discriminate|]. intros H%Forall_cons_1. destruct H; congruence.
    + destruct (firstHit g l) as [[r l']|].
      * split; [discriminate|]. intros [_ H]%Forall_cons_1. apply IH in H. discriminate.
      * split; [|done]. intros _. constructor; [done|]. by apply IH.
Qed.

Lemma firstHit_Some g l r l' :
  firstHit g l = Some (r, l') ->
  exists l1 x x' l2,
    l = l1 ++ x :: l2 /\ l' = l1 ++ x' :: l2 /\
    Forall (fun y => g y = None) l1 /\ g x = Some (r, x').
Proof.
  revert l'. induction l as [|x l IH]; intros l'; simpl; [discriminate|].
  destruct (g x) as [[r0 x']|] eqn:E.
  - intros [= <- <-]. exists [], x, x', l. auto.
  - destruct (firstHit g l) as [[r0 l0]|]; [|discriminate].
    intros [= <- <-].
    destruct (IH _ eq_refl) as (l1 & y & y' & l2 & -> & -> & H1 & H2).
    exists (x :: l1), y, y', l2. auto.
Qed.

Lemma firstSome_app_None f l1 l2 :
  Forall (fun x => f x = None) l1 -> firstSome f (l1 ++ l2) = firstSome f l2.
Proof. induction 1 as [|x l1 Hx _ IH]; simpl; [done|]. by rewrite Hx. Qed.
End Loops.

(** ** Nodes and ids *)

Lemma subtree_eq n : subtree n = n :: nodes (childrenOrEmpty n).
Proof. by destruct n as [i t p [cs|]]. Qed.

Lemma subtree_Some j t q cs :
  subtree (mkNode j t q (Some cs)) = mkNode j t q (Some cs) :: nodes cs.
Proof. done. Qed.

Lemma ids_subtree_Some j t q cs :
  id <$> subtree (mkNode j t q (Some cs)) = j :: ids cs.
Proof. done. Qed.

Lemma nodes_cons n l : nodes (n :: l) = subtree n ++ nodes l.
Proof. done. Qed.

Lemma nodes_app l1 l2 : nodes (l1 ++ l2) = nodes l1 ++ nodes l2.
Proof. apply flat_map_app. Qed.

Lemma ids_cons n l : ids (n :: l) = (id <$> subtree n) ++ ids l.
Proof. unfold ids. by rewrite nodes_cons, fmap_app. Qed.

Lemma ids_app l1 l2 : ids (l1 ++ l2) = ids l1 ++ ids l2.
Proof. unfold ids. by rewrite nodes_app, fmap_app. Qed.

Lemma ids_subtree n : id <$> subtree n = id n :: ids (childrenOrEmpty n).
Proof. by rewrite subtree_eq. Qed.

Lemma elem_of_nodes m l : m ∈ nodes l <-> exists n, n ∈ l /\ m ∈ subtree n.
Proof.
  unfold nodes. rewrite list_elem_of_In, in_flat_map.
  by setoid_rewrite list_elem_of_In.
Qed.

Lemma subtree_trans n : forall m x, m ∈ subtree n -> x ∈ subtree m -> x ∈ subtree n.
Proof.
  induction n as [j t q|j t q cs IH] using Node_ind; intros m x.
  - cbn [subtree children]. by intros ->%list_elem_of_singleton Hx.
  - rewrite (subtree_Some j t q cs), elem_of_cons.
    intros [->|Hm] Hx; [by rewrite subtree_Some in Hx|].
    apply elem_of_cons. right.
    apply elem_of_nodes in Hm as (c & Hc & Hm). apply elem_of_nodes. exists c.
    split; [done|]. eapply Forall_forall in IH; [|exact Hc]. by eapply IH.
Qed.

Lemma ids_below t n :
  n ∈ nodes t -> forall d, d ∈ ids (childrenOrEmpty n) -> d ∈ ids t.
Proof.
  intros Hn d (x & -> & Hx)%list_elem_of_fmap. apply list_elem_of_fmap_2.
  apply elem_of_nodes in Hn as (c & Hc & Hn). apply elem_of_nodes. exists c.
  split; [done|]. eapply subtree_trans; [exact Hn|].
  rewrite subtree_eq. set_solver.
Qed.


(** ** [walk] and [getNode] *)

Lemma walkNode_eq fn p n :
  walkNode fn p n =
    if fn n p then Some (n, p) else firstSome (walkNode fn (Some n)) (childrenOrEmpty n).
Proof. destruct n as [i t q [cs|]]; simpl; by destruct (fn _ _). Qed.

Lemma walkNode_None i n : forall p,
  walkNode (hasId i) p n = None <-> i ∉ id <$> subtree n.
Proof.
  induction n as [j t q|j t q cs IH] using Node_ind; intros p.
  - simpl. unfold hasId; simpl. destruct (decide (j = i)) as [->|Hj].
    + rewrite bool_decide_eq_true_2 by done. set_solver.
    + rewrite bool_decide_eq_false_2 by done. set_solver.
  - rewrite walkNode_eq, ids_subtree. unfold hasId at 1; simpl.
    unfold childrenOrEmpty; simpl.
    case_bool_decide as Hj; [set_solver|].
    rewrite firstSome_None, not_elem_of_cons.
    assert (Forall (fun c => walkNode (hasId i) (Some (mkNode j t q (Some cs))) c = None) cs
            <-> i ∉ ids cs) as ->; [|naive_solver].
    clear Hj. generalize (Some (mkNode j t q (Some cs))). intros p'.
    induction IH as [|c cs Hc _ IHcs]; [set_solver|].
    rewrite Forall_cons, Hc, IHcs, ids_cons. set_solver.
Qed.

Lemma walk_None i l p : walk l (hasId i) p = None <-> i ∉ ids l.
Proof.
  unfold walk. rewrite firstSome_None.
  induction l as [|c l IH]; [set_solver|].
  rewrite Forall_cons, walkNode_None, IH, ids_cons. set_solver.
Qed.

Lemma getNode_None t i : getNode t i = None <-> i ∉ ids t.
Proof. unfold getNode. rewrite fmap_None. apply walk_None. Qed.

Lemma walkNode_Some i n : forall p m q,
  walkNode (hasId i) p n = Some (m, q) -> m ∈ subtree n /\ id m = i.
Proof.
  induction n as [j t q0|j t q0 cs IH] using Node_ind; intros p m q.
  - simpl. unfold hasId; simpl. case_bool_decide; [|done].
    intros [= <- <-]. split; [set_solver|done].
  - rewrite walkNode_eq, subtree_eq. unfold hasId at 1; simpl.
    unfold childrenOrEmpty; simpl.
    case_bool_decide as Hj.
    { intros [= <- <-]. split; [set_solver|done]. }
    intros (l1 & c & l2 & -> & _ & Hc)%firstSome_Some.
    apply Forall_app in IH as [_ [IHc _]%Forall_cons_1].
    apply IHc in Hc as [Hm ?]. split; [|done].
    rewrite elem_of_cons, nodes_app, nodes_cons. set_solver.
Qed.

Lemma walk_Some i l p m q :
  walk l (hasId i) p = Some (m, q) -> m ∈ nodes l /\ id m = i.
Proof.
  intros (l1 & c & l2 & -> & _ & Hc)%firstSome_Some.
  apply walkNode_Some in Hc as [Hm ?]. split; [|done].
  rewrite nodes_app, nodes_cons. set_solver.
Qed.

Lemma getNode_Some t i n : getNode t i = Some n -> n ∈ nodes t /\ id n = i.
Proof.
  unfold getNode. intros ([m q] & H & ->)%fmap_Some. simpl. by eapply walk_Some.
Qed.

(** With unique ids a node is determined by its id. *)
Lemma nodes_unique (l : list Node) m m' :
  NoDup (id <$> l) -> m ∈ l -> m' ∈ l -> id m = id m' -> m = m'.
Proof.
  induction l as [|x l IH]; [set_solver|].
  rewrite fmap_cons, NoDup_cons, !elem_of_cons.
  intros [Hx Hl] [->|Hm] [->|Hm'] E; auto.
  - exfalso. apply Hx. rewrite E. by apply list_elem_of_fmap_2.
  - exfalso. apply Hx. rewrite <- E. by apply list_elem_of_fmap_2.
Qed.

Lemma getNode_unique t n :
  NoDup (ids t) -> n ∈ nodes t -> getNode t (id n) = Some n.
Proof.
  intros Hnd Hn.
  destruct (getNode t (id n)) as [m|] eqn:E.
  - apply getNode_Some in E as [Hm E]. f_equal. by eapply nodes_unique.
  - apply getNode_None in E. exfalso. apply E. by apply list_elem_of_fmap_2.
Qed.

(** ** [removeNode] *)

Lemma removeHere_Some i l r l' :
  removeHere i l = Some (r, l') ->
  id r = i /\ r ∈ l /\ l ≡ₚ r :: l'.
Proof.
  unfold removeHere.
  destruct (list_find _ l) as [[k n]|] eqn:E; [|discriminate].
  intros [= <- <-]. apply list_find_Some in E as (Hk & Hn & _).
  split_and!; [done| by eapply list_elem_of_lookup_2 | by apply delete_Permutation].
Qed.

Lemma removeHere_None i l :
  removeHere i l = None <-> i ∉ id <$> l.
Proof.
  unfold removeHere.
  destruct (list_find _ l) as [[k n]|] eqn:E.
  - split; [discriminate|]. intros H. exfalso. apply H.
    apply list_find_Some in E as (Hk & <- & _).
    apply list_elem_of_fmap_2. by eapply list_elem_of_lookup_2.
  - split; [|done]. intros _. apply list_find_None in E.
    intros (n & -> & Hn)%list_elem_of_fmap.
    by eapply Forall_forall in E.
Qed.

Lemma nodes_Permutation l l' : l ≡ₚ l' -> nodes l ≡ₚ nodes l'.
Proof. apply Permutation_flat_map. Qed.

Lemma ids_Permutation l l' : l ≡ₚ l' -> ids l ≡ₚ ids l'.
Proof. intros H. unfold ids. by rewrite (nodes_Permutation _ _ H). Qed.

Lemma subtree_setChildren n cs :
  id <$> subtree (setChildren n cs) = id n :: ids cs.
Proof. done. Qed.

Lemma removeBelow_Some i n : forall r n',
  removeBelow i n = Some (r, n') ->
  id r = i /\ r ∈ subtree n /\ id n' = id n /\
  (id <$> subtree n) ≡ₚ (id <$> subtree r) ++ (id <$> subtree n').
Proof.
  induction n as [j t q|j t q cs IH] using Node_ind; intros r n'; [done|].
  cbn [removeBelow children].
  destruct (removeHere i cs) as [[r0 cs0]|] eqn:Hhere.
  - intros [= <- <-]. apply removeHere_Some in Hhere as (Hi & Hr & Hp).
    split_and!; [done| |done|].
    + rewrite subtree_Some. apply elem_of_cons. right.
      apply elem_of_nodes. exists r0. split; [done|].
      rewrite subtree_eq. set_solver.
    + rewrite subtree_setChildren, ids_subtree_Some.
      cbn [id]. rewrite (ids_Permutation _ _ Hp), ids_cons.
      by rewrite Permutation_middle.
  - destruct (firstHit (removeBelow i) cs) as [[r0 cs0]|] eqn:Hhit; [|done].
    intros [= <- <-].
    apply firstHit_Some in Hhit as (l1 & c & c' & l2 & -> & -> & _ & Hc).
    apply Forall_app in IH as [_ [IHc _]%Forall_cons_1].
    apply IHc in Hc as (Hi & Hr & Hid & Hp).
    split_and!; [done| |done|].
    + rewrite subtree_Some, nodes_app, nodes_cons. set_solver.
    + rewrite subtree_setChildren, ids_subtree_Some. cbn [id].
      rewrite !ids_app, !ids_cons, Hp.
      rewrite <- Permutation_middle. f_equiv.
      rewrite <- (assoc app). apply Permutation_app_swap_app.
Qed.

Lemma removeNode_Some i t r t' :
  removeNode i t = Some (r, t') ->
  id r = i /\ r ∈ nodes t /\ ids t ≡ₚ (id <$> subtree r) ++ ids t'.
Proof.
  unfold removeNode. destruct (removeHere i t) as [[r0 t0]|] eqn:Hhere.
  - intros [= <- <-]. apply removeHere_Some in Hhere as (Hi & Hr & Hp).
    split_and!; [done| |].
    + apply elem_of_nodes. exists r0. split; [done|]. rewrite subtree_eq. set_solver.
    + by rewrite (ids_Permutation _ _ Hp), ids_cons.
  - intros (l1 & c & c' & l2 & -> & -> & _ & Hc)%firstHit_Some.
    apply removeBelow_Some in Hc as (Hi & Hr & Hid & Hp).
    split_and!; [done| |].
    + rewrite nodes_app, nodes_cons. set_solver.
    + rewrite !ids_app, !ids_cons, Hp.
      rewrite <- (assoc app). apply Permutation_app_swap_app.
Qed.

Lemma removeBelow_None i n :
  removeBelow i n = None -> i ∉ ids (childrenOrEmpty n).
Proof.
  induction n as [j t q|j t q cs IH] using Node_ind; [set_solver|].
  simpl. unfold childrenOrEmpty; simpl.
  destruct (removeHere i cs) as [[r0 cs0]|] eqn:Hhere; [done|].
  destruct (firstHit (removeBelow i) cs) as [[r0 cs0]|] eqn:Hhit; [done|].
  intros _. apply removeHere_None in Hhere. apply firstHit_None in Hhit.
  induction IH as [|c cs Hc _ IHcs]; [set_solver|].
  apply Forall_cons_1 in Hhit as [Hc' Hcs'].
  rewrite ids_cons, ids_subtree. set_solver.
Qed.

Lemma removeNode_None i t : removeNode i t = None -> i ∉ ids t.
Proof.
  unfold removeNode. destruct (removeHere i t) as [[r0 t0]|] eqn:Hhere; [done|].
  intros Hhit%firstHit_None. apply removeHere_None in Hhere.
  induction t as [|c t IH]; [set_solver|].
  apply Forall_cons_1 in Hhit as [Hc Hcs]. apply removeBelow_None in Hc.
  rewrite ids_cons, ids_subtree. set_solver.
Qed.

(** ** Writes through a reference *)

Lemma id_setChildren n cs : id (setChildren n cs) = id n.
Proof. done. Qed.

Lemma childrenOrEmpty_setChildren n cs : childrenOrEmpty (setChildren n cs) = cs.
Proof. done. Qed.

Lemma mutateNode_eq i f n :
  mutateNode i f n =
    if bool_decide (id n = i) then Some (n, f n)
    else prod_map Datatypes.id (setChildren n) <$>
           firstHit (mutateNode i f) (childrenOrEmpty n).
Proof.
  destruct n as [j t q [cs|]]; cbn [mutateNode children childrenOrEmpty];
    case_bool_decide; try done.
  unfold childrenOrEmpty; simpl. by destruct (firstHit _ cs) as [[??]|].
Qed.

(** [mutate] finds the node that [getNode] returns. *)
Lemma mutateNode_fst i f n : forall p,
  fst <$> mutateNode i f n = fst <$> walkNode (hasId i) p n.
Proof.
  induction n as [j t q|j t q cs IH] using Node_ind; intros p.
  - simpl. unfold hasId; simpl. by case_bool_decide.
  - rewrite mutateNode_eq, walkNode_eq. unfold hasId at 1.
    case_bool_decide as Hj; [done|]. clear Hj.
    unfold childrenOrEmpty; simpl. generalize (Some (mkNode j t q (Some cs))).
    generalize (setChildren (mkNode j t q (Some cs))). intros g p'.
    induction IH as [|c cs Hc _ IHcs]; [done|]. simpl.
    specialize (Hc p').
    destruct (mutateNode i f c) as [[r c']|], (walkNode (hasId i) p' c) as [[m q']|];
      simplify_eq/=; try done.
    destruct (firstHit (mutateNode i f) cs) as [[r cs']|],
      (firstSome (walkNode (hasId i) p') cs) as [[m q']|]; simplify_eq/=; done.
Qed.

Lemma mutate_fst t i f : fst <$> mutate t i f = getNode t i.
Proof.
  unfold mutate, getNode, walk.
  induction t as [|c t IH]; [done|]. simpl.
  pose proof (mutateNode_fst i f c None) as Hc.
  destruct (mutateNode i f c) as [[r c']|], (walkNode (hasId i) None c) as [[m q']|];
    simplify_eq/=; try done.
  destruct (firstHit (mutateNode i f) t) as [[r t']|],
    (firstSome (walkNode (hasId i) None) t) as [[m q']|]; simplify_eq/=; done.
Qed.

Lemma mutate_getNode t i f n :
  getNode t i = Some n -> exists t', mutate t i f = Some (n, t').
Proof.
  rewrite <- (mutate_fst t i f).
  destruct (mutate t i f) as [[r t']|]; [|done]. intros [= <-]. by exists t'.
Qed.

Lemma walkNode_None_of_mutate i f n p :
  mutateNode i f n = None -> walkNode (hasId i) p n = None.
Proof.
  intros H. pose proof (mutateNode_fst i f n p) as E. rewrite H in E.
  by destruct (walkNode _ _ _).
Qed.

(** After the write, [getNode] returns the written node. *)
Lemma mutateNode_walk i f n : forall r n' p,
  mutateNode i f n = Some (r, n') -> id (f r) = i ->
  fst <$> walkNode (hasId i) p n' = Some (f r).
Proof.
  induction n as [j t q|j t q cs IH] using Node_ind; intros r n' p.
  - simpl. case_bool_decide; [|done]. intros [= <- <-] E.
    rewrite walkNode_eq. unfold hasId. by rewrite bool_decide_eq_true_2.
  - rewrite mutateNode_eq. case_bool_decide as Hj.
    { intros [= <- <-] E. rewrite walkNode_eq. unfold hasId.
      by rewrite bool_decide_eq_true_2. }
    unfold childrenOrEmpty; simpl.
    destruct (firstHit (mutateNode i f) cs) as [[r0 cs']|] eqn:Hhit; [|done].
    intros [= <- <-] E.
    apply firstHit_Some in Hhit as (l1 & c & c' & l2 & -> & -> & Hl1 & Hc).
    apply Forall_app in IH as [_ [IHc _]%Forall_cons_1].
    rewrite walkNode_eq. unfold hasId at 1.
    rewrite id_setChildren, childrenOrEmpty_setChildren.
    rewrite bool_decide_eq_false_2 by done.
    rewrite firstSome_app_None.
    2:{ eapply Forall_impl; [exact Hl1|]. intros y Hy.
        by apply (walkNode_None_of_mutate i f). }
    cbn [firstSome].
    set (parent' := Some (setChildren (mkNode j t q (Some (l1 ++ c :: l2)))
                            (l1 ++ c' :: l2))).
    specialize (IHc _ _ parent' Hc E).
    by destruct (walkNode _ _ c') as [[??]|].
Qed.

Lemma getNode_mutate t i f n t' :
  mutate t i f = Some (n, t') -> id (f n) = i -> getNode t' i = Some (f n).
Proof.
  intros (l1 & c & c' & l2 & -> & -> & Hl1 & Hc)%firstHit_Some E.
  unfold getNode, walk. rewrite firstSome_app_None.
  2:{ eapply Forall_impl; [exact Hl1|]. intros y Hy.
      by apply (walkNode_None_of_mutate i f). }
  cbn [firstSome]. pose proof (mutateNode_walk _ _ _ _ _ None Hc E) as Hw.
  by destruct (walkNode _ _ c') as [[??]|].
Qed.

(** ** The tree store *)

Lemma isRoot_false (p : string) : p <> "root" -> p <> "" -> isRoot p = false.
Proof. intros. unfold isRoot. by rewrite !bool_decide_eq_false_2. Qed.

Lemma isDescendant_true t a d :
  NoDup (ids t) -> descendantOf t a d -> isDescendant t a d = true.
Proof.
  intros Hnd (n & Hn & <- & Hd). unfold isDescendant.
  rewrite (getNode_unique t n Hnd Hn). apply bool_decide_eq_true_2.
  apply not_eq_None_Some. by intros H%walk_None.
Qed.

(** Once a subtree is out of a forest with unique ids, none of its ids is
    found in what is left. *)
Lemma removed_ids_absent (t rest : list Node) (r : Node) (d : string) :
  NoDup (ids t) -> ids t ≡ₚ (id <$> subtree r) ++ ids rest ->
  d ∈ id <$> subtree r -> getNode rest d = None.
Proof.
  intros Hnd Hperm Hd. apply getNode_None.
  rewrite Hperm in Hnd. apply NoDup_app in Hnd as (_ & Hdisj & _). by apply Hdisj.
Qed.

(** C2.  A move of a node onto itself, or into a node below it, leaves the
    whole state as it was: the forest (ids, parents, sibling order) is the
    same value, and the call returns normally.  For the move into a
    descendant, ids are unique in the tree and the string ["root"] names the
    root, not a node. *)
Theorem moveNode_rejects_self_and_descendant (s : State) (i : string) (index : Index) :
  moveNode i i index s = s /\
  forall d,
    NoDup (ids (tree s)) -> d <> "root" -> descendantOf (tree s) i d ->
    moveNode i d index s = s.
Proof.
  unfold moveNode. split.
  - by rewrite bool_decide_eq_true_2.
  - intros d Hnd Hroot Hdesc. case_bool_decide; [done|].
    by rewrite (bool_decide_eq_false_2 _ Hroot), (isDescendant_true _ _ _ Hnd Hdesc).
Qed.

(** C4.  [removeNode] takes out the node that [getNode] finds together with
    everything below it, and nothing else: the ids of the forest before
    are those of the removed subtree and those of the forest left, every
    id outside the subtree is still found, and [getNode] finds neither the
    id of the node nor the id of any of its descendants. *)
Theorem removeNode_cascades (t : list Node) (i : string) (n : Node) :
  NoDup (ids t) -> getNode t i = Some n ->
  exists rest,
    removeNode i t = Some (n, rest) /\
    ids t ≡ₚ (id <$> subtree n) ++ ids rest /\
    (forall d, d ∈ id <$> subtree n -> getNode rest d = None) /\
    (forall d, d ∈ ids t -> (d ∉ id <$> subtree n) -> is_Some (getNode rest d)).
Proof.
  intros Hnd Hget. pose proof (getNode_Some _ _ _ Hget) as [Hn Hid].
  destruct (removeNode i t) as [[r rest]|] eqn:Hrm.
  - apply removeNode_Some in Hrm as (Hr & Hin & Hperm).
    assert (r = n) as -> by (eapply nodes_unique; [exact Hnd|done..|congruence]).
    exists rest. split; [done|]. split; [done|]. split.
    + intros d Hd. by eapply removed_ids_absent.
    + intros d Hd Hout. rewrite Hperm in Hd.
      apply elem_of_app in Hd as [?|Hd]; [done|].
      apply not_eq_None_Some. by intros ?%getNode_None.
  - apply removeNode_None in Hrm. exfalso. apply Hrm. rewrite <- Hid.
    by apply list_elem_of_fmap_2.
Qed.

(** C8.  When the target of a move is neither the root nor a node of the
    tree, the node is taken out with its subtree and put back nowhere: the
    forest afterwards is what [removeNode] leaves, it has lost the ids of the
    subtree, and with unique ids [getNode] finds none of them any more. *)
Theorem moveNode_unresolved_target_drops_subtree
    (s : State) (i target : string) (index : Index) (n : Node) :
  getNode (tree s) i = Some n ->
  target <> "root" -> target <> "" -> target ∉ ids (tree s) ->
  exists r rest,
    removeNode i (tree s) = Some (r, rest) /\
    id r = i /\ r ∈ nodes (tree s) /\
    tree (moveNode i target index s) = rest /\
    ids (tree s) ≡ₚ (id <$> subtree r) ++ ids rest /\
    tree (moveNode i target index s) <> tree s /\
    (NoDup (ids (tree s)) ->
     r = n /\
     forall d, d ∈ id <$> subtree n ->
               getNode (tree (moveNode i target index s)) d = None).
Proof.
  intros Hget Hroot Hempty Hfresh.
  pose proof (getNode_Some _ _ _ Hget) as [Hn Hid].
  assert (i ∈ ids (tree s)) as Hi by (rewrite <- Hid; by apply list_elem_of_fmap_2).
  destruct (removeNode i (tree s)) as [[r rest]|] eqn:Hrm;
    [|by apply removeNode_None in Hrm].
  pose proof (removeNode_Some _ _ _ _ Hrm) as (Hr & Hin & Hperm).
  assert (tree (moveNode i target index s) = rest) as Hmove.
  { unfold moveNode. rewrite bool_decide_eq_false_2 by (by intros <-).
    unfold isDescendant. rewrite Hget.
    rewrite (bool_decide_eq_false_2 (is_Some _)).
    2:{ rewrite <- not_eq_None_Some. intros H. apply H. apply walk_None.
        intros Hd. apply Hfresh. eapply ids_below; [exact Hn|exact Hd]. }
    rewrite andb_false_r, Hrm. cbn [tree setTree].
    unfold insertNode. rewrite isRoot_false by done.
    assert (getNode rest target = None) as ->; [|done].
    apply getNode_None. intros Hd. apply Hfresh. rewrite Hperm. set_solver. }
  exists r, rest. split_and!; try done.
  - rewrite Hmove. intros ->. apply Permutation_length in Hperm.
    rewrite length_app, subtree_eq in Hperm. simpl in Hperm. lia.
  - intros Hnd.
    assert (r = n) as -> by (eapply nodes_unique; [exact Hnd|done..|congruence]).
    split; [done|]. intros d Hd. rewrite Hmove. by eapply removed_ids_absent.
Qed.

Lemma spliceIn_clampTop (l : list Node) (index : Index) (x : Node) :
  exists k,
    spliceIn l (clampTop index (length l)) x = take k l ++ x :: drop k l /\
    match index with
    | Infinity => k = length l
    | Idx z =>
        ((Z.of_nat (length l) < z)%Z -> k = length l) /\
        ((0 <= z <= Z.of_nat (length l))%Z -> Z.of_nat k = z) /\
        ((z < 0)%Z -> Z.of_nat k = Z.max 0 (Z.of_nat (length l) + z))
    end.
Proof.
  unfold spliceIn, clampTop. destruct index as [z|].
  - repeat case_bool_decide; eexists; (split; [reflexivity|]); lia.
  - case_bool_decide; [lia|]. eexists. split; [reflexivity|]. lia.
Qed.

(** C7, as the code has it.  The new node lands in the destination sequence
    at position [k]: the end when [index] exceeds the length (or is left at
    its default [Infinity]), [index] itself between 0 and the length, and for
    a negative [index] the position [length + index] counted back from the
    end, or the front once that falls below 0.  The same holds at the root
    and in the children of a node. *)
Theorem insertNode_lands (node : Node) (parentId : string) (index : Index)
    (t dest : list Node) :
  destination t parentId = Some dest ->
  exists k,
    destination (insertNode node parentId index t) parentId
      = Some (take k dest ++ node :: drop k dest) /\
    match index with
    | Infinity => k = length dest
    | Idx z =>
        ((Z.of_nat (length dest) < z)%Z -> k = length dest) /\
        ((0 <= z <= Z.of_nat (length dest))%Z -> Z.of_nat k = z) /\
        ((z < 0)%Z -> Z.of_nat k = Z.max 0 (Z.of_nat (length dest) + z))
    end.
Proof.
  unfold destination, insertNode. destruct (isRoot parentId) eqn:Hroot.
  - intros [= <-]. destruct (spliceIn_clampTop t index node) as (k & -> & Hk).
    by exists k.
  - intros (parent & Hget & ->)%fmap_Some. rewrite Hget.
    destruct (mutate_getNode t parentId (adopt node index) parent Hget) as [t' Hmut].
    rewrite Hmut. apply getNode_Some in Hget as [_ Hid].
    rewrite (getNode_mutate _ _ _ _ _ Hmut) by done.
    destruct (spliceIn_clampTop (childrenOrEmpty parent) index node) as (k & Hsp & Hk).
    exists k. split; [|done]. cbn [fmap option_fmap option_map]. f_equal.
    unfold adopt. by rewrite childrenOrEmpty_setChildren.
Qed.

(** C7 as stated fails below 0: the index -1 puts the node in front of the
    last element, at the root and among the children of the demo folder. *)
Lemma insertNode_negative_index_not_front :
  let t' := insertNode (rapidMove "op_x") "root" (Idx (-1)) seedTree in
  let t'' := insertNode (rapidMove "op_x") "op_f1" (Idx (-1)) seedTree in
  t' = [seedFolder; seedLoop; rapidMove "op_x"; seedSafe] /\
  t' <> rapidMove "op_x" :: seedTree /\
  (childrenOrEmpty <$> getNode t'' "op_f1")
    = Some [seedOffset; rapidMove "op_x"; seedTouch].
Proof.
  cbv zeta. split; [reflexivity|]. split; [|reflexivity].
  intros H. apply (f_equal ids) in H. vm_compute in H. discriminate H.
Qed.

(** C3, as the code has it.  When [parentId] is neither a name of the root
    nor the id of any node, [insertNode] changes nothing. *)
Theorem insertNode_unknown_parent_noop (node : Node) (parentId : string)
    (index : Index) (t : list Node) :
  parentId <> "root" -> parentId <> "" -> parentId ∉ ids t ->
  insertNode node parentId index t = t.
Proof.
  intros Hroot Hempty Hfresh%getNode_None. unfold insertNode.
  by rewrite isRoot_false, Hfresh.
Qed.

(** C3 as stated fails: a parent that is found but is no container.  The
    work offset of the demo forest is a leaf of a kind the registry does not
    mark as a container; inserting under its id changes the forest and gives
    the leaf a [children] array. *)
Lemma insertNode_under_leaf_changes_tree :
  let t' := insertNode (rapidMove "op_x") "op_n1" Infinity seedTree in
  getNode seedTree "op_n1" = Some seedOffset /\
  isContainer seedOffset = false /\
  children seedOffset = None /\
  t' <> seedTree /\
  getNode t' "op_n1" = Some (setChildren seedOffset [rapidMove "op_x"]).
Proof.
  cbv zeta. split; [reflexivity|]. split; [reflexivity|]. split; [reflexivity|].
  split; [|reflexivity].
  intros H. apply (f_equal ids) in H. vm_compute in H. discriminate H.
Qed.

(** A parent found without a [children] array is given one that holds the
    new node, whatever the registry says about its kind. *)
Lemma insertNode_childless_parent (node parent : Node) (parentId : string)
    (index : Index) (t : list Node) :
  isRoot parentId = false -> getNode t parentId = Some parent ->
  children parent = None ->
  getNode (insertNode node parentId index t) parentId
    = Some (setChildren parent [node]).
Proof.
  intros Hroot Hget Hnone. unfold insertNode. rewrite Hroot, Hget.
  destruct (mutate_getNode t parentId (adopt node index) parent Hget) as [t' Hmut].
  rewrite Hmut. apply getNode_Some in Hget as [_ Hid].
  rewrite (getNode_mutate _ _ _ _ _ Hmut) by done. f_equal.
  unfold adopt, childrenOrEmpty, spliceIn. rewrite Hnone. cbn [default from_option].
  by rewrite take_nil, drop_nil.
Qed.

(** [deleteNode] takes exactly the deleted id out of the two sets. *)
Lemma deleteNode_sets (i : string) (s : State) (n : Node) :
  getNode (tree s) i = Some n ->
  expanded (deleteNode i true s) = expanded s ∖ {[ i ]} /\
  collapsed (deleteNode i true s) = collapsed s ∖ {[ i ]}.
Proof. intros Hget. unfold deleteNode. by rewrite Hget. Qed.

(** C10 fails on the code.  Deleting the folder of the demo forest while the
    folder and one of its children are in both sets: the folder's id is taken
    out of the sets, the child leaves the forest with the folder but its id
    stays in both sets. *)
Theorem deleteNode_leaves_descendant_ids :
  let s := mkState seedTree {[ "op_n1"; "op_f1" ]} {[ "op_n1"; "op_f1" ]} "root" false in
  let s' := deleteNode "op_f1" true s in
  tree s' = [seedLoop; seedSafe] /\
  getNode (tree s') "op_n1" = None /\
  ("op_f1" ∉ expanded s') /\ ("op_f1" ∉ collapsed s') /\
  ("op_n1" ∈ expanded s') /\ ("op_n1" ∈ collapsed s').
Proof.
  cbv zeta.
  destruct (deleteNode_sets "op_f1"
    (mkState seedTree {[ "op_n1"; "op_f1" ]} {[ "op_n1"; "op_f1" ]} "root" false)
    seedFolder eq_refl) as [-> ->].
  split; [reflexivity|]. split; [reflexivity|]. set_solver.
Qed.

(** ** The emitter *)

(** Case analysis on a member of [TOOLS]. *)
Ltac tool_cases H :=
  unfold TOOLS in H; rewrite !elem_of_cons, elem_of_nil in H;
  destruct H as [->|[->|[->|[->|[->|[->|[->|[->|[->|[]]]]]]]]]].

Lemma emitNode_eq (node : Node) (ctx : EmitContext) :
  emitNode node ctx =
    match lookupTool (toolId node) with
    | None => ([ line ctx ("; Unknown node " +:+ toolId node) ], ctx)
    | Some def =>
        let '(raw, ctx') :=
          match def with
          | Entry t => gcode t (emitChildren node) node ctx ctx
          | Inherited => ([], ctx)
          end in
        (indentAll ctx' raw, ctx')
    end.
Proof. by destruct node as [i t q [cs|]]. Qed.

Lemma indentAll_atLevel (ctx : EmitContext) (arr : list string) :
  indentAll ctx arr = atLevel (indent ctx) <$> arr.
Proof.
  unfold indentAll. apply list_fmap_ext. intros _ l _.
  case_bool_decide; by subst.
Qed.

Lemma atLevel_0 (arr : list string) : atLevel 0 <$> arr = arr.
Proof. rewrite <- (list_fmap_id arr) at 2. by apply list_fmap_ext. Qed.

Lemma TOOL_BY_ID_Some (k : string) (def : Tool) :
  TOOL_BY_ID !! k = Some def -> def ∈ TOOLS /\ key def = k.
Proof.
  unfold TOOL_BY_ID. intros H%elem_of_list_to_map_2.
  apply list_elem_of_fmap in H as (t & [= -> ->] & Ht). done.
Qed.

Lemma lookupTool_Entry (k : string) (def : Tool) :
  lookupTool k = Some (Entry def) <-> TOOL_BY_ID !! k = Some def.
Proof.
  unfold lookupTool. destruct (TOOL_BY_ID !! k) as [t|]; [naive_solver|].
  case_bool_decide; naive_solver.
Qed.

(** What a callback of the registry does to the object [ctx]: the IF block
    takes a label, nobody else touches it. *)
Lemma gcode_ctx (def : Tool) kids (op : Node) (copy ctx : EmitContext) :
  def ∈ TOOLS ->
  snd (gcode def kids op copy ctx) =
    createEmitContext (indent ctx)
      (if bool_decide (key def = "if-block") then labelSeed ctx + 1 else labelSeed ctx)%N
      (loopDepth ctx).
Proof. intros Hdef. tool_cases Hdef; by destruct ctx. Qed.

Lemma emitNode_ctx (node : Node) (ctx : EmitContext) :
  snd (emitNode node ctx) =
    createEmitContext (indent ctx)
      (if bool_decide (toolId node = "if-block") then labelSeed ctx + 1 else labelSeed ctx)%N
      (loopDepth ctx).
Proof.
  rewrite emitNode_eq. destruct (lookupTool (toolId node)) as [[def|]|] eqn:E.
  - apply lookupTool_Entry, TOOL_BY_ID_Some in E as [Hdef <-].
    pose proof (gcode_ctx def (emitChildren node) node ctx ctx Hdef) as H.
    by destruct (gcode def _ _ _ _).
  - rewrite bool_decide_eq_false_2; [by destruct ctx|].
    intros H. by rewrite H in E.
  - rewrite bool_decide_eq_false_2; [by destruct ctx|].
    intros H. by rewrite H in E.
Qed.

Lemma emitNode_lines (node : Node) (ctx : EmitContext) :
  fst (emitNode node ctx) = atLevel (indent ctx) <$> rawLines node ctx.
Proof.
  rewrite emitNode_eq. unfold rawLines.
  destruct (lookupTool (toolId node)) as [[def|]|] eqn:E; [|done..].
  apply lookupTool_Entry, TOOL_BY_ID_Some in E as [Hdef _].
  pose proof (gcode_ctx def (emitChildren node) node ctx ctx Hdef) as H.
  destruct (gcode def _ _ _ _) as [raw ctx']. simpl in *.
  rewrite indentAll_atLevel. by subst.
Qed.

Lemma emitRoots_app (before after : list Node) (ctx : EmitContext) :
  emitRoots (before ++ after) ctx =
    let '(a, c1) := emitRoots before ctx in
    let '(b, c2) := emitRoots after c1 in
    (a ++ b, c2).
Proof.
  revert ctx. induction before as [|n before IH]; intros ctx; simpl.
  - by destruct (emitRoots after ctx).
  - destruct (emitNode n ctx) as [out c1]. rewrite IH.
    destruct (emitRoots before c1) as [a c2].
    destruct (emitRoots after c2) as [b c3]. by rewrite (assoc app).
Qed.

Lemma emitRoots_indent (t : list Node) (ctx : EmitContext) :
  indent (snd (emitRoots t ctx)) = indent ctx.
Proof.
  revert ctx. induction t as [|n t IH]; intros ctx; simpl; [done|].
  pose proof (emitNode_ctx n ctx) as H.
  destruct (emitNode n ctx) as [out c1]. specialize (IH c1).
  destruct (emitRoots t c1) as [body c2]. simpl in *. by rewrite IH, H.
Qed.

Lemma emitRoots_bodyFrom (t : list Node) (seed : N) :
  fst (emitRoots t (createEmitContext 0 seed 0)) = bodyFrom seed t.
Proof.
  revert seed. induction t as [|n t IH]; intros seed; simpl; [done|].
  pose proof (emitNode_ctx n (createEmitContext 0 seed 0)) as H.
  destruct (emitNode n _) as [out c1]. simpl in H. subst c1.
  specialize (IH (if bool_decide (toolId n = "if-block") then seed + 1 else seed)%N).
  destruct (emitRoots t _) as [body c2]. simpl in *. by rewrite IH.
Qed.

(** C9, as the code has it.  The program text is a function of the forest
    and of the date text of the day: the header, fixed but for its date
    line, then the lines of every root node in order, each emitted at indent
    0 and loop depth 0 with the label counter where the IF blocks before it
    at root level left it, then the fixed footer, joined by line breaks. *)
Theorem generateGCode_text (today : string) (t : list Node) :
  generateGCode today t =
    String.concat newline
      ([ ";Renishaw Probe Routine - Generated by Probe Builder";
         ";Program: PROBE_ROUTINE.NC";
         ";Date: " +:+ today;
         "";
         ";Initialize program";
         "G0 G17 G40 G49 G80 G90";
         "" ]
       ++ bodyFrom 1000 t
       ++ [ ";End of probe routine"; "G0 G53 Z0."; "M30"; "" ]).
Proof. unfold generateGCode. by rewrite emitRoots_bodyFrom. Qed.

(** C9 as stated fails: the same forest on two days gives two texts. *)
Lemma generateGCode_depends_on_date :
  generateGCode "1/1/2026" seedTree <> generateGCode "1/2/2026" seedTree.
Proof. vm_compute. discriminate. Qed.

(** Where the lookup [TOOL_BY_ID[node.toolId]] is [undefined], the test
    [if (!def)] of [emitNode] does its work: the node yields one line, the
    diagnostic comment behind the indentation of its context, whatever
    children it has, and leaves the context as it was; the lines of the nodes
    before and after it, at the root or under a common parent, are emitted
    around that line, and so is the program text. *)
Lemma unknown_tool_emits_one_line (node : Node) (ctx : EmitContext) :
  lookupTool (toolId node) = None ->
  let diag := fun k => repeat2 k +:+ "; Unknown node " +:+ toolId node in
  (forall cs,
     emitNode (mkNode (id node) (toolId node) (params node) cs) ctx
       = ([ diag (indent ctx) ], ctx)) /\
  (forall before after c0,
     emitRoots (before ++ node :: after) c0 =
       let '(a, c1) := emitRoots before c0 in
       let '(b, c2) := emitRoots after c1 in
       (a ++ diag (indent c0) :: b, c2)) /\
  (forall parent before after w delta,
     children parent = Some (before ++ node :: after) ->
     emitChildren parent w delta =
       emitChildren (setChildren parent before) w delta
       ++ diag (indent w + delta)
       :: emitChildren (setChildren parent after) w delta) /\
  (forall today before after,
     let c0 := createEmitContext 0 1000 0 in
     generateGCode today (before ++ node :: after) =
       String.concat newline
         (header today
          ++ (fst (emitRoots before c0)
              ++ diag 0 :: fst (emitRoots after (snd (emitRoots before c0))))
          ++ footer)).
Proof.
  intros Hunknown diag.
  assert (forall c, emitNode node c = ([ diag (indent c) ], c)) as Hnode.
  { intros c. rewrite emitNode_eq. by rewrite Hunknown. }
  assert (forall before after c0,
     emitRoots (before ++ node :: after) c0 =
       let '(a, c1) := emitRoots before c0 in
       let '(b, c2) := emitRoots after c1 in
       (a ++ diag (indent c0) :: b, c2)) as Hroots.
  { intros before after c0. rewrite emitRoots_app.
    pose proof (emitRoots_indent before c0) as Hind.
    destruct (emitRoots before c0) as [a c1]. cbn [emitRoots]. rewrite Hnode.
    destruct (emitRoots after c1) as [b c2]. simpl in Hind. by rewrite Hind. }
  split_and!.
  - intros cs. rewrite emitNode_eq. cbn [toolId]. by rewrite Hunknown.
  - exact Hroots.
  - intros parent before after w delta Hcs. unfold emitChildren, childrenOrEmpty.
    rewrite Hcs. cbn [children setChildren default from_option Datatypes.id].
    rewrite flat_map_app. cbn [flat_map]. rewrite Hnode. reflexivity.
  - intros today before after c0. unfold generateGCode. fold c0.
    rewrite Hroots. destruct (emitRoots before c0) as [a c1]. cbn [fst snd].
    by destruct (emitRoots after c1) as [b c2].
Qed.

(** C5 fails on the code.  The test [if (!def)] is there to catch a [toolId]
    that the registry does not have, but [TOOL_BY_ID] is a plain object and
    the lookup also answers for the names every object inherits: none of
    them is a key of the registry, none is [undefined], and none has a
    [gcode], so for a node with such a [toolId] [emitNode] returns no line
    at all, and the program text is the one of the empty forest.  The node
    below, with the tool name [constructor], gives no diagnostic line. *)
Theorem inherited_tool_name_emits_nothing :
  Forall (fun k =>
            TOOL_BY_ID !! k = None /\
            forall i q cs ctx today,
              emitNode (mkNode i k q cs) ctx = ([], ctx) /\
              generateGCode today [mkNode i k q cs] = generateGCode today [])
         inheritedNames /\
  TOOL_BY_ID !! "constructor" = None /\
  fst (emitNode (mkNode "op_u" "constructor" ∅ None) (createEmitContext 2 1000 1))
    = [] /\
  fst (emitNode (mkNode "op_u" "constructor" ∅ None) (createEmitContext 2 1000 1))
    <> [ "    ; Unknown node constructor" ].
Proof.
  split; [|split; [reflexivity|split; [reflexivity|discriminate]]].
  unfold inheritedNames.
  repeat (constructor;
          [split; [reflexivity|intros i q cs ctx today; split; reflexivity]|]).
  constructor.
Qed.

Lemma emitChildren_lines (n : Node) (ctx : EmitContext) (delta : nat) :
  emitChildren n ctx delta =
    flat_map (fun c => atLevel (indent ctx + delta) <$> rawLines c (indented ctx delta))
      (childrenOrEmpty n).
Proof.
  unfold emitChildren. apply flat_map_ext. intros c. by rewrite emitNode_lines.
Qed.

(** C6, as the code has it.  Take a container emitted at indent 0.  Its own
    lines, the ones it emits when it is empty, carry no indentation; between
    them come the lines of its children, the text of every child shifted by
    exactly one unit when the container is an IF block or a WHILE loop, and
    by none when it is a folder, which passes the delta 0. *)
Theorem container_children_shift (n : Node) (ctx : EmitContext) (cs : list Node) :
  isContainer n = true -> children n = Some cs -> indent ctx = 0 ->
  let delta := if bool_decide (toolId n = "folder") then 0 else 1 in
  exists opening closing,
    fst (emitNode (setChildren n []) ctx) = atLevel 0 <$> (opening ++ closing) /\
    fst (emitNode n ctx) =
      (atLevel 0 <$> opening)
      ++ flat_map (fun c => atLevel delta <$> rawLines c (indented ctx delta)) cs
      ++ (atLevel 0 <$> closing).
Proof.
  intros Hcont Hcs Hind delta. unfold isContainer in Hcont.
  destruct (lookupTool (toolId n)) as [[def|]|] eqn:Hdef; try discriminate Hcont.
  apply lookupTool_Entry in Hdef.
  assert (childrenOrEmpty n = cs) as Hkids by (unfold childrenOrEmpty; by rewrite Hcs).
  pose proof (emitChildren_lines n ctx) as Hn.
  pose proof (emitChildren_lines (setChildren n []) ctx) as He.
  rewrite Hkids, Hind in Hn. rewrite childrenOrEmpty_setChildren in He.
  cbn [flat_map] in He. subst delta.
  rewrite !emitNode_eq. cbn [toolId setChildren].
  rewrite (proj2 (lookupTool_Entry _ _) Hdef).
  apply TOOL_BY_ID_Some in Hdef as [Hin Hkey]. rewrite <- Hkey. clear Hkey.
  tool_cases Hin; try discriminate Hcont; cbn [gcode key container].
  - unfold folder_gcode. cbn [fst]. rewrite !indentAll_atLevel, Hind, Hn, He.
    rewrite bool_decide_eq_true_2 by done.
    eexists [_], [_; _]. rewrite !fmap_app, !atLevel_0. done.
  - unfold if_block_gcode, nextLabel. cbn [fst indent].
    rewrite !indentAll_atLevel, Hind, Hn, He.
    rewrite bool_decide_eq_false_2 by done.
    eexists [_; _; _; _], [_; _]. rewrite !fmap_app, !atLevel_0. done.
  - unfold while_block_gcode. cbn [fst]. rewrite !indentAll_atLevel, Hind, Hn, He.
    rewrite bool_decide_eq_false_2 by done.
    eexists [_], [_; _]. rewrite !fmap_app, !atLevel_0. done.
Qed.

(** C6 as stated fails on a folder: the lines of the children of the demo
    folder start in the same column as the folder's own banner lines. *)
Lemma folder_children_not_deeper :
  fst (emitNode seedFolder (createEmitContext 0 1000 0)) =
    [ ";===== SETUP A =====";
      "G54"; "";
      "G65 P9811 X-10 F10"; "";
      ";===== END SETUP A ====="; "" ] /\
  fst (emitNode seedOffset (indented (createEmitContext 0 1000 0) 0)) = [ "G54"; "" ] /\
  leadingSpaces "G54" <> leadingSpaces ";===== SETUP A =====" + 2.
Proof. split; [reflexivity|]. split; [reflexivity|]. vm_compute. lia. Qed.

(** The label that an IF block takes, and the label that an IF block right
    below it takes: the child's context is made by [indented] from the copy
    handed to the parent's callback, and the copy was taken before the
    parent's [nextLabel] advanced the counter. *)
Lemma if_block_child_label (p c : Node) (ctx : EmitContext) :
  toolId p = "if-block" -> toolId c = "if-block" ->
  head (rawLines p ctx) =
    Some ("IF [" +:+ param p "left" +:+ " " +:+ param p "op" +:+ " "
          +:+ param p "right" +:+ "] GOTO " +:+ pretty (labelSeed ctx)) /\
  head (rawLines c (indented ctx 1)) =
    Some ("IF [" +:+ param c "left" +:+ " " +:+ param c "op" +:+ " "
          +:+ param c "right" +:+ "] GOTO " +:+ pretty (labelSeed ctx)).
Proof.
  intros Hp Hc. unfold rawLines. rewrite Hp, Hc. split; reflexivity.
Qed.

(** C1 fails on the code.  An IF block with an IF block inside: both take
    the label 1000, so the text holds the jump targets [N1000] and
    [N1000_END] twice on one path from the root. *)
Theorem nested_if_blocks_take_one_label :
  fst (emitRoots [ifBlock "op_a" [ifBlock "op_b" []]] (createEmitContext 0 1000 0)) =
    [ "IF [#100 GT #101] GOTO 1000";
      "; (IF false → skip children)";
      "GOTO 1000_END";
      "N1000";
      "  IF [#100 GT #101] GOTO 1000";
      "  ; (IF false → skip children)";
      "  GOTO 1000_END";
      "  N1000";
      "  N1000_END";
      "  ";
      "N1000_END";
      "" ].
Proof. reflexivity. Qed.

(** Two IF blocks side by side in a folder take one label as well, while two
    at root level take 1000 and 1001. *)
Example sibling_if_blocks_labels :
  fst (emitRoots [mkNode "op_f" "folder" ∅ (Some [ifBlock "op_a" []; ifBlock "op_b" []])]
         (createEmitContext 0 1000 0)) =
    [ ";===== SECTION =====";
      "IF [#100 GT #101] GOTO 1000"; "; (IF false → skip children)";
      "GOTO 1000_END"; "N1000"; "N1000_END"; "";
      "IF [#100 GT #101] GOTO 1000"; "; (IF false → skip children)";
      "GOTO 1000_END"; "N1000"; "N1000_END"; "";
      ";===== END SECTION ====="; "" ] /\
  fst (emitRoots [ifBlock "op_a" []; ifBlock "op_b" []] (createEmitContext 0 1000 0)) =
    [ "IF [#100 GT #101] GOTO 1000"; "; (IF false → skip children)";
      "GOTO 1000_END"; "N1000"; "N1000_END"; "";
      "IF [#100 GT #101] GOTO 1001"; "; (IF false → skip children)";
      "GOTO 1001_END"; "N1001"; "N1001_END"; "" ].
Proof. split; reflexivity. Qed.

(** Below the first level the indentation is put on twice: [emitNode]
    indents the lines of the children again with the context of the parent.
    A rapid move two blocks deep stands behind three units, not two. *)
Example grandchild_indentation :
  fst (emitRoots [ifBlock "op_a" [ifBlock "op_b" [rapidMove "op_c"]]]
         (createEmitContext 0 1000 0)) !! 8 = Some "      G0 X0 Y0 Z25".
Proof. reflexivity. Qed.

(** ** Instances on the demo forest *)

Lemma seedTree_unique_ids : NoDup (ids seedTree).
Proof. compute_done. Defined.

Lemma moveNode_rejects_self_and_descendant_seed :
  NoDup (ids (tree seedState)) /\ "op_n1" <> "root" /\
  descendantOf (tree seedState) "op_f1" "op_n1" /\
  moveNode "op_f1" "op_f1" Infinity seedState = seedState /\
  moveNode "op_f1" "op_n1" Infinity seedState = seedState.
Proof.
  assert (descendantOf (tree seedState) "op_f1" "op_n1") as Hdesc.
  { exists seedFolder. split; [left|]. split; [reflexivity|]. left. }
  split; [exact seedTree_unique_ids|]. split; [discriminate|]. split; [exact Hdesc|].
  destruct (moveNode_rejects_self_and_descendant seedState "op_f1" Infinity)
    as [Hself Hbelow].
  split; [exact Hself|].
  apply (Hbelow "op_n1"); [exact seedTree_unique_ids | discriminate | exact Hdesc].
Defined.

Lemma removeNode_cascades_seed :
  NoDup (ids seedTree) /\ getNode seedTree "op_f1" = Some seedFolder /\
  exists rest,
    removeNode "op_f1" seedTree = Some (seedFolder, rest) /\
    ids seedTree ≡ₚ (id <$> subtree seedFolder) ++ ids rest /\
    (forall d, d ∈ id <$> subtree seedFolder -> getNode rest d = None) /\
    (forall d, d ∈ ids seedTree -> (d ∉ id <$> subtree seedFolder) ->
               is_Some (getNode rest d)).
Proof.
  split; [exact seedTree_unique_ids|]. split; [reflexivity|].
  apply (removeNode_cascades seedTree "op_f1" seedFolder);
    [exact seedTree_unique_ids | reflexivity].
Defined.

Lemma ids_seedTree :
  ids seedTree = ["op_f1"; "op_n1"; "op_n2"; "op_loop"; "op_w1"; "op_s1"].
Proof. reflexivity. Defined.

Lemma op_gone_fresh : "op_gone" ∉ ids seedTree.
Proof. rewrite ids_seedTree. compute_done. Defined.

Lemma moveNode_unresolved_target_drops_subtree_seed :
  getNode (tree seedState) "op_loop" = Some seedLoop /\
  "op_gone" <> "root" /\ "op_gone" <> "" /\ ("op_gone" ∉ ids (tree seedState)) /\
  exists r rest,
    removeNode "op_loop" (tree seedState) = Some (r, rest) /\
    id r = "op_loop" /\ r ∈ nodes (tree seedState) /\
    tree (moveNode "op_loop" "op_gone" Infinity seedState) = rest /\
    ids (tree seedState) ≡ₚ (id <$> subtree r) ++ ids rest /\
    tree (moveNode "op_loop" "op_gone" Infinity seedState) <> tree seedState /\
    (NoDup (ids (tree seedState)) ->
     r = seedLoop /\
     forall d, d ∈ id <$> subtree seedLoop ->
               getNode (tree (moveNode "op_loop" "op_gone" Infinity seedState)) d = None).
Proof.
  split; [reflexivity|]. split; [discriminate|]. split; [discriminate|].
  split; [exact op_gone_fresh|].
  apply (moveNode_unresolved_target_drops_subtree seedState "op_loop" "op_gone"
           Infinity seedLoop);
    [reflexivity | discriminate | discriminate | exact op_gone_fresh].
Defined.

Lemma insertNode_unknown_parent_noop_seed :
  "op_gone" <> "root" /\ "op_gone" <> "" /\ ("op_gone" ∉ ids seedTree) /\
  insertNode (rapidMove "op_x") "op_gone" Infinity seedTree = seedTree.
Proof.
  split; [discriminate|]. split; [discriminate|]. split; [exact op_gone_fresh|].
  apply (insertNode_unknown_parent_noop (rapidMove "op_x") "op_gone" Infinity seedTree);
    [discriminate | discriminate | exact op_gone_fresh].
Defined.

Lemma insertNode_lands_seed :
  destination seedTree "op_f1" = Some [seedOffset; seedTouch] /\
  exists k,
    destination (insertNode (rapidMove "op_x") "op_f1" (Idx 7) seedTree) "op_f1"
      = Some (take k [seedOffset; seedTouch]
              ++ rapidMove "op_x" :: drop k [seedOffset; seedTouch]) /\
    (((Z.of_nat (length [seedOffset; seedTouch]) < 7)%Z ->
        k = length [seedOffset; seedTouch]) /\
     ((0 <= 7 <= Z.of_nat (length [seedOffset; seedTouch]))%Z -> Z.of_nat k = 7%Z) /\
     ((7 < 0)%Z ->
        Z.of_nat k = Z.max 0 (Z.of_nat (length [seedOffset; seedTouch]) + 7))).
Proof.
  split; [reflexivity|].
  apply (insertNode_lands (rapidMove "op_x") "op_f1" (Idx 7) seedTree
           [seedOffset; seedTouch]).
  reflexivity.
Defined.

Lemma unknown_tool_emits_one_line_laser :
  let node := mkNode "op_u" "laser-scan" ∅ None in
  let ctx := createEmitContext 2 1000 1 in
  lookupTool (toolId node) = None /\
  emitNode node ctx = ([ "    ; Unknown node laser-scan" ], ctx).
Proof.
  cbv zeta. split; [reflexivity|].
  apply (unknown_tool_emits_one_line (mkNode "op_u" "laser-scan" ∅ None)
           (createEmitContext 2 1000 1) eq_refl).
Defined.

Lemma container_children_shift_seedLoop :
  isContainer seedLoop = true /\
  children seedLoop = Some [seedPocket] /\
  indent (createEmitContext 0 1000 0) = 0 /\
  exists opening closing,
    fst (emitNode (setChildren seedLoop []) (createEmitContext 0 1000 0))
      = atLevel 0 <$> (opening ++ closing) /\
    fst (emitNode seedLoop (createEmitContext 0 1000 0)) =
      (atLevel 0 <$> opening)
      ++ flat_map (fun c => atLevel 1 <$>
                     rawLines c (indented (createEmitContext 0 1000 0) 1))
           [seedPocket]
      ++ (atLevel 0 <$> closing).
Proof.
  split; [reflexivity|]. split; [reflexivity|]. split; [reflexivity|].
  apply (container_children_shift seedLoop (createEmitContext 0 1000 0) [seedPocket]);
    reflexivity.
Defined.

(** * More of the code *)

(** ** Scanning an array of siblings *)

Section AtSiblingsFacts.
Context {A : Type} (isIt : A -> bool) (below : A -> option A).
Implicit Types (f : list A -> list A) (l rest pre : list A).

Local Abbreviation passes := (passes isIt below).

Lemma atSiblingsFrom_None f l rest k :
  atSiblingsFrom isIt below f l rest k = None <-> Forall passes rest.
Proof.
  revert k. induction rest as [|x rest IH]; intros k; simpl; [by split|].
  rewrite Forall_cons. unfold passes at 1.
  destruct (isIt x); [naive_solver|]. destruct (below x); [naive_solver|].
  rewrite IH. naive_solver.
Qed.

Lemma atSiblingsFrom_hit f l mid x post k :
  Forall passes mid -> isIt x = true ->
  atSiblingsFrom isIt below f l (mid ++ x :: post) k = Some (f l).
Proof.
  intros Hmid Hx. revert k.
  induction Hmid as [|y mid [Hy1 Hy2] _ IH]; intros k; simpl.
  - by rewrite Hx.
  - by rewrite Hy1, Hy2.
Qed.

Lemma atSiblingsFrom_inside f l mid x x' post k :
  Forall passes mid -> isIt x = false -> below x = Some x' ->
  atSiblingsFrom isIt below f l (mid ++ x :: post) k
    = Some (<[k + length mid := x']> l).
Proof.
  intros Hmid Hx Hx'. revert k.
  induction Hmid as [|y mid [Hy1 Hy2] _ IH]; intros k; simpl.
  - rewrite Hx, Hx'. by rewrite Nat.add_0_r.
  - rewrite Hy1, Hy2, IH. by replace (S k + length mid) with (k + S (length mid)) by lia.
Qed.

Lemma atSiblingsFrom_Some f l rest k l' :
  atSiblingsFrom isIt below f l rest k = Some l' ->
  exists mid x post,
    rest = mid ++ x :: post /\ Forall passes mid /\
    ((isIt x = true /\ l' = f l) \/
     (isIt x = false /\ exists x', below x = Some x' /\ l' = <[k + length mid := x']> l)).
Proof.
  revert k. induction rest as [|x rest IH]; intros k; simpl; [done|].
  destruct (isIt x) eqn:Hx.
  { intros [= <-]. exists [], x, rest. split; [done|]. split; [done|]. by left. }
  destruct (below x) as [x'|] eqn:Hx'.
  { intros [= <-]. exists [], x, rest. split; [done|]. split; [done|]. right.
    split; [done|]. exists x'. split; [done|]. simpl. by rewrite Nat.add_0_r. }
  intros (mid & y & post & -> & Hmid & Hy)%IH.
  exists (x :: mid), y, post. split; [done|]. split; [by constructor|].
  destruct Hy as [?|(? & y' & ? & ->)]; [by left|right].
  split; [done|]. exists y'. split; [done|]. simpl.
  by replace (k + S (length mid)) with (S k + length mid) by lia.
Qed.

Lemma insert_at_middle mid (x x' : A) post :
  <[0 + length mid := x']> (mid ++ x :: post) = mid ++ x' :: post.
Proof.
  replace (0 + length mid) with (length mid + 0) by lia. by rewrite insert_app_r.
Qed.

Lemma atSiblings_None f l :
  atSiblings isIt below f l = None <-> Forall passes l.
Proof. apply atSiblingsFrom_None. Qed.

Lemma atSiblings_Some f l l' :
  atSiblings isIt below f l = Some l' ->
  exists mid x post,
    l = mid ++ x :: post /\ Forall passes mid /\
    ((isIt x = true /\ l' = f l) \/
     (isIt x = false /\ exists x', below x = Some x' /\ l' = mid ++ x' :: post)).
Proof.
  intros (mid & x & post & -> & Hmid & H)%atSiblingsFrom_Some.
  exists mid, x, post. split; [done|]. split; [done|].
  destruct H as [?|(? & x' & ? & ->)]; [by left|right].
  split; [done|]. exists x'. split; [done|]. apply insert_at_middle.
Qed.

Lemma atSiblings_hit f mid x post :
  Forall passes mid -> isIt x = true ->
  atSiblings isIt below f (mid ++ x :: post) = Some (f (mid ++ x :: post)).
Proof. apply atSiblingsFrom_hit. Qed.

Lemma atSiblings_inside f mid x x' post :
  Forall passes mid -> isIt x = false -> below x = Some x' ->
  atSiblings isIt below f (mid ++ x :: post) = Some (mid ++ x' :: post).
Proof.
  intros Hmid Hx Hx'. unfold atSiblings.
  rewrite (atSiblingsFrom_inside _ _ _ _ x'); [|done..].
  f_equal. apply insert_at_middle.
Qed.
End AtSiblingsFacts.

(** ** Ids that are not in the forest *)

Lemma not_in_ids_cons (i : string) (c : Node) (l : list Node) :
  i ∉ ids (c :: l) <-> id c <> i /\ (i ∉ ids (childrenOrEmpty c)) /\ (i ∉ ids l).
Proof. rewrite ids_cons, ids_subtree. set_solver. Qed.

Lemma removeBelow_absent (i : string) (n : Node) :
  i ∉ ids (childrenOrEmpty n) -> removeBelow i n = None.
Proof.
  induction n as [j t q|j t q cs IH] using Node_ind; [done|].
  unfold childrenOrEmpty. cbn [removeBelow children default from_option Datatypes.id].
  intros Hi.
  assert (removeHere i cs = None) as ->.
  { apply removeHere_None. intros (c & -> & Hc)%list_elem_of_fmap. apply Hi.
    apply list_elem_of_fmap_2, elem_of_nodes. exists c. split; [done|].
    rewrite subtree_eq. set_solver. }
  assert (firstHit (removeBelow i) cs = None) as ->; [|done].
  apply firstHit_None. induction IH as [|c cs Hc _ IHcs]; [done|].
  apply not_in_ids_cons in Hi as (_ & Hi1 & Hi2). constructor; auto.
Qed.

Lemma removeNode_absent (i : string) (t : list Node) :
  i ∉ ids t -> removeNode i t = None.
Proof.
  intros Hi. unfold removeNode.
  assert (removeHere i t = None) as ->.
  { apply removeHere_None. intros (c & -> & Hc)%list_elem_of_fmap. apply Hi.
    apply list_elem_of_fmap_2, elem_of_nodes. exists c. split; [done|].
    rewrite subtree_eq. set_solver. }
  apply firstHit_None. induction t as [|c t IH]; [done|].
  apply not_in_ids_cons in Hi as (_ & Hi1 & Hi2).
  constructor; [by apply removeBelow_absent|auto].
Qed.

Lemma siblingsBelow_None (i : string) (f : list Node -> list Node) (n : Node) :
  siblingsBelow i f n = None <-> i ∉ ids (childrenOrEmpty n).
Proof.
  induction n as [j t q|j t q cs IH] using Node_ind; [set_solver|].
  unfold childrenOrEmpty. cbn [siblingsBelow children default from_option Datatypes.id].
  destruct (atSiblings _ _ f cs) as [cs'|] eqn:E.
  - split; [done|]. intros Hi. exfalso.
    assert (atSiblings (fun x => bool_decide (id x = i)) (siblingsBelow i f) f cs = None)
      as E'; [|congruence].
    clear E. apply atSiblings_None.
    induction IH as [|c cs Hc _ IHcs]; [done|].
    apply not_in_ids_cons in Hi as (Hi0 & Hi1 & Hi2). constructor; [|auto].
    split; [by apply bool_decide_eq_false_2|by apply Hc].
  - split; [|done]. intros _. apply atSiblings_None in E.
    induction IH as [|c cs Hc _ IHcs]; [set_solver|].
    apply Forall_cons_1 in E as [[E1 E2] E3].
    apply not_in_ids_cons. split_and!; [|by apply Hc|auto].
    by apply bool_decide_eq_false_1 in E1.
Qed.

Lemma passes_iff (i : string) (f : list Node -> list Node) (c : Node) :
  passes (fun x => bool_decide (id x = i)) (siblingsBelow i f) c
  <-> i ∉ id <$> subtree c.
Proof.
  unfold passes. rewrite siblingsBelow_None, ids_subtree, not_elem_of_cons.
  rewrite bool_decide_eq_false. naive_solver.
Qed.

Lemma Forall_passes (i : string) (f : list Node -> list Node) (l : list Node) :
  Forall (passes (fun x => bool_decide (id x = i)) (siblingsBelow i f)) l
  <-> i ∉ ids l.
Proof.
  induction l as [|c l IH]; [set_solver|].
  rewrite Forall_cons, IH, passes_iff, ids_cons. set_solver.
Qed.

Lemma withSiblings_None (t : list Node) (i : string) (f : list Node -> list Node) :
  withSiblings t i f = None <-> i ∉ ids t.
Proof. unfold withSiblings. by rewrite atSiblings_None, Forall_passes. Qed.

(** X1.  A mutation addressed to an id that no node of the forest has
    changes nothing: [removeNode] returns [null], and [moveNode],
    [deleteNode], [updateParams] and [reorderSibling] leave the state as it
    is, whatever their other arguments. *)
Theorem unknown_id_changes_nothing (s : State) (i : string) :
  i ∉ ids (tree s) ->
  removeNode i (tree s) = None /\
  (forall target index, moveNode i target index s = s) /\
  (forall ok, deleteNode i ok s = s) /\
  (forall patch, updateParams i patch s = s) /\
  (forall dir, reorderSibling i dir s = s).
Proof.
  intros Hi. pose proof (removeNode_absent _ _ Hi) as Hrm.
  pose proof (proj2 (getNode_None _ _) Hi) as Hget.
  split_and!; [done|..].
  - intros target index. unfold moveNode. rewrite Hrm.
    by repeat destruct (_ : bool).
  - intros ok. unfold deleteNode. by rewrite Hget.
  - intros patch. unfold updateParams. by rewrite Hget.
  - intros dir. unfold reorderSibling.
    by rewrite (proj2 (withSiblings_None _ _ _) Hi).
Qed.

(** ** What an insertion adds *)

Lemma nodes_trans (t : list Node) (m x : Node) :
  m ∈ nodes t -> x ∈ subtree m -> x ∈ nodes t.
Proof.
  intros (c & Hc & Hm)%elem_of_nodes Hx. apply elem_of_nodes. exists c.
  split; [done|]. by eapply subtree_trans.
Qed.

Lemma ids_spliceIn (l : list Node) (z : Z) (x : Node) :
  ids (spliceIn l z x) ≡ₚ (id <$> subtree x) ++ ids l.
Proof.
  unfold spliceIn. set (k := Z.to_nat _).
  rewrite <- (take_drop k l) at 3. rewrite !ids_app, ids_cons.
  apply Permutation_app_swap_app.
Qed.

Lemma spliceIn_In (l : list Node) (z : Z) (x : Node) : x ∈ spliceIn l z x.
Proof. unfold spliceIn. set_solver. Qed.

Lemma spliceIn_Infinity (l : list Node) (x : Node) :
  spliceIn l (clampTop Infinity (length l)) x = l ++ [x].
Proof.
  destruct (spliceIn_clampTop l Infinity x) as (k & -> & ->).
  by rewrite take_ge, drop_ge by lia.
Qed.

(** The ids of the forest after a write through a reference, when the write
    adds the ids [E] to the subtree it is applied to. *)
Lemma mutateNode_ids (i : string) (f : Node -> Node) (E : list string) (n : Node) :
  forall r n',
    mutateNode i f n = Some (r, n') ->
    id <$> subtree (f r) ≡ₚ E ++ (id <$> subtree r) ->
    id <$> subtree n' ≡ₚ E ++ (id <$> subtree n).
Proof.
  induction n as [j t q|j t q cs IH] using Node_ind; intros r n'.
  - simpl. case_bool_decide; [|done]. by intros [= <- <-].
  - rewrite mutateNode_eq. case_bool_decide as Hj; [by intros [= <- <-]|].
    unfold childrenOrEmpty. cbn [children default from_option Datatypes.id].
    destruct (firstHit (mutateNode i f) cs) as [[r0 cs']|] eqn:Hhit; [|done].
    intros [= <- <-] HE.
    apply firstHit_Some in Hhit as (l1 & c & c' & l2 & -> & -> & _ & Hc).
    apply Forall_app in IH as [_ [IHc _]%Forall_cons_1].
    specialize (IHc _ _ Hc HE).
    rewrite subtree_setChildren, ids_subtree_Some. cbn [id].
    rewrite !ids_app, !ids_cons, IHc.
    rewrite <- Permutation_middle. f_equiv.
    rewrite <- (assoc app). apply Permutation_app_swap_app.
Qed.

Lemma mutate_ids (t : list Node) (i : string) (f : Node -> Node) (E : list string)
    (r : Node) (t' : list Node) :
  mutate t i f = Some (r, t') ->
  id <$> subtree (f r) ≡ₚ E ++ (id <$> subtree r) ->
  ids t' ≡ₚ E ++ ids t.
Proof.
  intros (l1 & c & c' & l2 & -> & -> & _ & Hc)%firstHit_Some HE.
  rewrite !ids_app, !ids_cons, (mutateNode_ids _ _ _ _ _ _ Hc HE).
  rewrite <- (assoc app). apply Permutation_app_swap_app.
Qed.

Lemma mutateNode_In (i : string) (f : Node -> Node) (n : Node) :
  forall r n', mutateNode i f n = Some (r, n') -> f r ∈ subtree n'.
Proof.
  induction n as [j t q|j t q cs IH] using Node_ind; intros r n'.
  - simpl. case_bool_decide; [|done]. intros [= <- <-]. rewrite subtree_eq. set_solver.
  - rewrite mutateNode_eq. case_bool_decide as Hj.
    { intros [= <- <-]. rewrite subtree_eq. set_solver. }
    unfold childrenOrEmpty. cbn [children default from_option Datatypes.id].
    destruct (firstHit (mutateNode i f) cs) as [[r0 cs']|] eqn:Hhit; [|done].
    intros [= <- <-].
    apply firstHit_Some in Hhit as (l1 & c & c' & l2 & -> & -> & _ & Hc).
    apply Forall_app in IH as [_ [IHc _]%Forall_cons_1].
    specialize (IHc _ _ Hc). unfold setChildren. rewrite subtree_Some.
    apply elem_of_cons. right. rewrite nodes_app, nodes_cons. set_solver.
Qed.

Lemma mutate_In (t : list Node) (i : string) (f : Node -> Node)
    (r : Node) (t' : list Node) :
  mutate t i f = Some (r, t') -> f r ∈ nodes t'.
Proof.
  intros (l1 & c & c' & l2 & -> & -> & _ & Hc)%firstHit_Some.
  apply mutateNode_In in Hc. rewrite nodes_app, nodes_cons. set_solver.
Qed.

Lemma ids_adopt (node parent : Node) (index : Index) :
  id <$> subtree (adopt node index parent)
    ≡ₚ (id <$> subtree node) ++ (id <$> subtree parent).
Proof.
  unfold adopt. rewrite subtree_setChildren, ids_spliceIn, (ids_subtree parent).
  apply Permutation_middle.
Qed.

Lemma adopt_In (node parent : Node) (index : Index) :
  node ∈ subtree (adopt node index parent).
Proof.
  unfold adopt, setChildren. rewrite subtree_Some. apply elem_of_cons. right.
  apply elem_of_nodes. eexists. split; [apply spliceIn_In|].
  rewrite subtree_eq. set_solver.
Qed.

(** What [insertNode] does to the ids, shared by the statements below. *)
Lemma insertNode_resolved (node : Node) (parentId : string) (index : Index)
    (t : list Node) :
  isRoot parentId = true \/ parentId ∈ ids t ->
  ids (insertNode node parentId index t) ≡ₚ (id <$> subtree node) ++ ids t /\
  node ∈ nodes (insertNode node parentId index t).
Proof.
  unfold insertNode. destruct (isRoot parentId) eqn:Hroot.
  { intros _. split; [apply ids_spliceIn|].
    apply elem_of_nodes. eexists. split; [apply spliceIn_In|].
    rewrite subtree_eq. set_solver. }
  intros [?|Hin]; [done|].
  destruct (getNode t parentId) as [parent|] eqn:Hget;
    [|by apply getNode_None in Hget].
  destruct (mutate_getNode t parentId (adopt node index) parent Hget) as [t' Hmut].
  rewrite Hmut. split.
  - eapply mutate_ids; [exact Hmut|apply ids_adopt].
  - eapply nodes_trans; [by eapply mutate_In|apply adopt_In].
Qed.

Lemma insertNode_ids_cases (node : Node) (parentId : string) (index : Index)
    (t : list Node) :
  ids (insertNode node parentId index t) ≡ₚ (id <$> subtree node) ++ ids t \/
  insertNode node parentId index t = t.
Proof.
  destruct (isRoot parentId) eqn:Hroot.
  { left. apply insertNode_resolved. by left. }
  destruct (decide (parentId ∈ ids t)) as [Hin|Hout].
  { left. apply insertNode_resolved. by right. }
  right. unfold insertNode. rewrite Hroot.
  by rewrite (proj2 (getNode_None _ _) Hout).
Qed.

(** X2.  When the parent resolves (the root, or the id of a node),
    [insertNode] adds the ids of the new subtree to the forest and nothing
    else; if those ids are distinct and new, all ids stay unique, [getNode]
    finds every node of the new subtree under its id, and still finds every
    id that was there before. *)
Theorem insertNode_then_getNode (node : Node) (parentId : string) (index : Index)
    (t : list Node) :
  isRoot parentId = true \/ parentId ∈ ids t ->
  let t' := insertNode node parentId index t in
  ids t' ≡ₚ (id <$> subtree node) ++ ids t /\
  (NoDup ((id <$> subtree node) ++ ids t) ->
   NoDup (ids t') /\
   (forall m, m ∈ subtree node -> getNode t' (id m) = Some m) /\
   (forall d, d ∈ ids t -> is_Some (getNode t' d))).
Proof.
  intros Hres t'. destruct (insertNode_resolved node parentId index t Hres) as [Hperm Hin].
  fold t' in Hperm, Hin. split; [done|]. intros Hnd.
  assert (NoDup (ids t')) as Hnd' by by rewrite Hperm.
  split_and!; [done| |].
  - intros m Hm. apply getNode_unique; [done|]. by eapply nodes_trans.
  - intros d Hd. apply not_eq_None_Some. intros Hnone%getNode_None.
    apply Hnone. rewrite Hperm. set_solver.
Qed.

(** ** Moves that are accepted *)

Lemma isDescendant_spec (t : list Node) (a d : string) :
  isDescendant t a d = true <->
  exists n, getNode t a = Some n /\ d ∈ ids (childrenOrEmpty n).
Proof.
  unfold isDescendant. rewrite bool_decide_eq_true, <- not_eq_None_Some.
  destruct (getNode t a) as [n|].
  - rewrite walk_None. split.
    + intros H. exists n. split; [done|]. by apply dec_stable.
    + intros (? & [= <-] & ?) ?. done.
  - split; [|naive_solver]. intros H. exfalso. apply H. by apply walk_None.
Qed.

Lemma insertNode_destination (node : Node) (parentId : string) (index : Index)
    (t : list Node) :
  isRoot parentId = true \/ parentId ∈ ids t ->
  exists dest,
    destination t parentId = Some dest /\
    destination (insertNode node parentId index t) parentId
      = Some (spliceIn dest (clampTop index (length dest)) node).
Proof.
  unfold destination, insertNode. destruct (isRoot parentId) eqn:Hroot.
  { intros _. by eexists. }
  intros [?|Hin]; [done|].
  destruct (getNode t parentId) as [parent|] eqn:Hget;
    [|by apply getNode_None in Hget].
  destruct (mutate_getNode t parentId (adopt node index) parent Hget) as [t' Hmut].
  rewrite Hmut. apply getNode_Some in Hget as [_ Hid].
  rewrite (getNode_mutate _ _ _ _ _ Hmut) by done.
  by exists (childrenOrEmpty parent).
Qed.

(** The two guards of [moveNode] pass and both halves do their work. *)
Lemma moveNode_accepted (s : State) (i target : string) (index : Index) (n : Node) :
  NoDup (ids (tree s)) -> getNode (tree s) i = Some n ->
  i <> target ->
  target = "root" \/ isDescendant (tree s) i target = false ->
  isRoot target = true \/ target ∈ ids (tree s) ->
  exists rest,
    removeNode i (tree s) = Some (n, rest) /\
    ids (tree s) ≡ₚ (id <$> subtree n) ++ ids rest /\
    tree (moveNode i target index s) = insertNode n target index rest /\
    (isRoot target = true \/ target ∈ ids rest).
Proof.
  intros Hnd Hget Hne Hguard Hres.
  pose proof (getNode_Some _ _ _ Hget) as [Hn Hid].
  destruct (removeNode i (tree s)) as [[r rest]|] eqn:Hrm.
  2:{ apply removeNode_None in Hrm. exfalso. apply Hrm. rewrite <- Hid.
      by apply list_elem_of_fmap_2. }
  pose proof (removeNode_Some _ _ _ _ Hrm) as (Hr & Hin & Hperm).
  assert (r = n) as -> by (eapply nodes_unique; [exact Hnd|done..|congruence]).
  exists rest. split; [done|]. split; [done|]. split.
  - unfold moveNode. rewrite bool_decide_eq_false_2 by done.
    destruct Hguard as [-> | ->]; [|by rewrite andb_false_r, Hrm].
    by rewrite bool_decide_eq_true_2, Hrm.
  - destruct (isRoot target) eqn:Hroot; [by left|right].
    destruct Hres as [?|Hin']; [done|].
    rewrite Hperm in Hin'. apply elem_of_app in Hin' as [Hsub|?]; [|done].
    exfalso. assert (target <> "root") as Hr'.
    { intros ->. by vm_compute in Hroot. }
    destruct Hguard as [?|Hdesc]; [done|].
    rewrite ids_subtree, elem_of_cons in Hsub. destruct Hsub as [?|Hsub]; [congruence|].
    assert (isDescendant (tree s) i target = true); [|congruence].
    apply isDescendant_spec. by exists n.
Qed.

(** X3.  A move whose target resolves and is neither the node nor below it
    loses nothing and doubles nothing: the ids of the forest are the same,
    [getNode] returns the moved node unchanged, and the node sits in the
    sequence of the target at the place [insertNode] gives it. *)
Theorem moveNode_keeps_nodes (s : State) (i target : string) (index : Index) (n : Node) :
  NoDup (ids (tree s)) -> getNode (tree s) i = Some n ->
  i <> target ->
  target = "root" \/ (target ∉ id <$> subtree n) ->
  isRoot target = true \/ target ∈ ids (tree s) ->
  let t' := tree (moveNode i target index s) in
  ids t' ≡ₚ ids (tree s) /\
  NoDup (ids t') /\
  getNode t' i = Some n /\
  exists dest rest,
    removeNode i (tree s) = Some (n, rest) /\
    destination rest target = Some dest /\
    destination t' target = Some (spliceIn dest (clampTop index (length dest)) n).
Proof.
  intros Hnd Hget Hne Hguard Hres t'.
  assert (target = "root" \/ isDescendant (tree s) i target = false) as Hguard'.
  { destruct Hguard as [?|Hout]; [by left|right].
    apply not_true_is_false. intros (n' & Hn' & Hd)%isDescendant_spec.
    assert (n' = n) as -> by congruence. apply Hout.
    rewrite ids_subtree. set_solver. }
  destruct (moveNode_accepted s i target index n Hnd Hget Hne Hguard' Hres)
    as (rest & Hrm & Hperm & Hmove & Hres').
  subst t'. rewrite Hmove.
  destruct (insertNode_resolved n target index rest Hres') as [Hperm' Hin].
  assert (ids (insertNode n target index rest) ≡ₚ ids (tree s)) as Hids
    by by rewrite Hperm', Hperm.
  assert (NoDup (ids (insertNode n target index rest))) as Hnd' by by rewrite Hids.
  split_and!; [done|done| |].
  - apply getNode_Some in Hget as [_ <-]. by apply getNode_unique.
  - destruct (insertNode_destination n target index rest Hres') as (dest & Hd & Hd').
    by exists dest, rest.
Qed.

(** ** Lookups *)

Lemma head_app {A} (l1 l2 : list A) :
  head (l1 ++ l2) = match head l1 with Some x => Some x | None => head l2 end.
Proof. by destruct l1. Qed.

Lemma walkNode_first (i : string) (n : Node) : forall p,
  fst <$> walkNode (hasId i) p n = head (filter (fun m => id m = i) (subtree n)).
Proof.
  induction n as [j t q|j t q cs IH] using Node_ind; intros p.
  - rewrite walkNode_eq, subtree_eq, filter_cons. unfold hasId. cbn [id].
    case_bool_decide; by rewrite ?decide_True, ?decide_False by done.
  - rewrite walkNode_eq, subtree_Some, filter_cons. unfold hasId at 1. cbn [id].
    case_bool_decide as Hj; rewrite ?decide_True, ?decide_False by done; [done|].
    unfold childrenOrEmpty. cbn [children default from_option Datatypes.id].
    generalize (Some (mkNode j t q (Some cs))). intros p'. clear Hj.
    induction IH as [|c cs Hc _ IHcs]; [done|].
    rewrite nodes_cons, filter_app, head_app, <- (Hc p'), <- IHcs. simpl.
    by destruct (walkNode (hasId i) p' c) as [[??]|].
Qed.

(** X4.  [getNode] returns the first node in document order that has the
    id. *)
Theorem getNode_first (t : list Node) (i : string) :
  getNode t i = head (filter (fun m => id m = i) (nodes t)).
Proof.
  unfold getNode, walk. induction t as [|c t IH]; [done|].
  rewrite nodes_cons, filter_app, head_app, <- (walkNode_first i c None), <- IH.
  simpl. by destruct (walkNode (hasId i) None c) as [[??]|].
Qed.

Lemma walkNode_parent (i : string) (n : Node) : forall p m q,
  walkNode (hasId i) p n = Some (m, q) ->
  (m = n /\ q = p) \/
  (exists par, q = Some par /\ par ∈ subtree n /\ m ∈ childrenOrEmpty par).
Proof.
  induction n as [j t q0|j t q0 cs IH] using Node_ind; intros p m q.
  - simpl. destruct (hasId _ _ _); [|done]. intros [= <- <-]. by left.
  - rewrite walkNode_eq. destruct (hasId _ _ _); [intros [= <- <-]; by left|].
    unfold childrenOrEmpty at 1. cbn [children default from_option Datatypes.id].
    intros (l1 & c & l2 & -> & _ & Hc)%firstSome_Some. right.
    apply Forall_app in IH as [_ [IHc _]%Forall_cons_1].
    apply IHc in Hc as [[-> ->]|(par & -> & Hpar & Hm)].
    + eexists. split; [done|]. split; [rewrite subtree_eq; set_solver|].
      unfold childrenOrEmpty. simpl. set_solver.
    + exists par. split; [done|]. split; [|done].
      rewrite subtree_Some, nodes_app, nodes_cons. set_solver.
Qed.

(** X5.  [getParent] returns a node of the forest that has, among its
    children, the node that [getNode] returns for the id.  Its answer
    [null] means that the id is unknown or that the node [getNode] returns
    stands at root level. *)
Theorem getParent_spec (t : list Node) (i : string) :
  (forall p, getParent t i = Some p ->
     p ∈ nodes t /\
     exists c, getNode t i = Some c /\ c ∈ childrenOrEmpty p /\ id c = i) /\
  (getParent t i = None -> forall n, getNode t i = Some n -> n ∈ t).
Proof.
  unfold getParent, getNode.
  destruct (walk t (hasId i) None) as [[m q]|] eqn:Hw; [|by split].
  pose proof (walk_Some _ _ _ _ _ Hw) as [_ Hid].
  apply firstSome_Some in Hw as (l1 & c & l2 & -> & _ & Hc).
  apply walkNode_parent in Hc as [[-> ->]|(par & -> & Hpar & Hm)]; simpl.
  - split; [done|]. intros _ n [= <-]. set_solver.
  - split; [|done]. intros p [= <-]. split.
    + rewrite nodes_app, nodes_cons. set_solver.
    + by exists m.
Qed.

(** ** Enumerations *)

Lemma eachContainerNode_filter (n : Node) :
  eachContainerNode n = filter (fun m => isContainer m = true) (subtree n).
Proof.
  induction n as [j t q|j t q cs IH] using Node_ind.
  - rewrite subtree_eq, filter_cons. cbn [eachContainerNode children].
    destruct (isContainer _); by rewrite ?decide_True, ?decide_False by done.
  - rewrite subtree_Some, filter_cons. cbn [eachContainerNode children].
    assert (flat_map eachContainerNode cs
            = filter (fun m => isContainer m = true) (nodes cs)) as ->.
    { induction IH as [|c cs Hc _ IHcs]; [done|].
      rewrite nodes_cons, filter_app, <- Hc, <- IHcs. done. }
    destruct (isContainer _); by rewrite ?decide_True, ?decide_False by done.
Qed.

Lemma eachContainer_filter (t : list Node) :
  eachContainer t = filter (fun m => isContainer m = true) (nodes t).
Proof.
  unfold eachContainer. induction t as [|c t IH]; [done|].
  rewrite nodes_cons, filter_app, <- eachContainerNode_filter, <- IH. done.
Qed.

Lemma untilTrue_never {S A} (g : A -> S -> S) (l : list A) (s : S) :
  untilTrue (fun x s => (g x s, false)) l s = (foldl (fun s x => g x s) s l, false).
Proof. revert s. induction l as [|x l IH]; intros s; simpl; [done|]. apply IH. Qed.

Lemma untilTrue_ext {S A} (f f' : A -> S -> S * bool) (l : list A) (s : S) :
  Forall (fun x => forall s, f x s = f' x s) l ->
  untilTrue f l s = untilTrue f' l s.
Proof.
  intros H. revert s. induction H as [|x l Hx _ IH]; intros s; simpl; [done|].
  rewrite Hx. destruct (f' x s) as [s1 []]; [done|apply IH].
Qed.

Lemma visitNode_never {S} (fn : Node -> option Node -> S -> S * bool)
    (g : Node -> S -> S) (n : Node) :
  (forall m p s, fn m p s = (g m s, false)) ->
  forall p s,
  visitNode fn p n s = (foldl (fun s m => g m s) s (subtree n), false).
Proof.
  intros Hfn.
  induction n as [j t q|j t q cs IH] using Node_ind; intros p s.
  { cbn [visitNode children]. by rewrite Hfn. }
  rewrite subtree_Some. cbn [visitNode children foldl]. rewrite Hfn.
  generalize (g (mkNode j t q (Some cs)) s). intros s1.
  generalize (Some (mkNode j t q (Some cs))). intros p'.
  rewrite (untilTrue_ext _ (fun c s => (foldl (fun s m => g m s) s (subtree c), false)))
    by (eapply Forall_impl; [exact IH|]; by intros c Hc s').
  rewrite (untilTrue_never (fun c s => foldl (fun s m => g m s) s (subtree c))).
  f_equal. clear IH. revert s1. induction cs as [|c cs IHcs]; intros s1; [done|].
  rewrite nodes_cons, foldl_app. apply IHcs.
Qed.

Lemma walkWith_never {S} (fn : Node -> option Node -> S -> S * bool)
    (g : Node -> S -> S) (t : list Node) (p : option Node) (s : S) :
  (forall m p s, fn m p s = (g m s, false)) ->
  walkWith t fn p s = (foldl (fun s m => g m s) s (nodes t), false).
Proof.
  intros Hfn. unfold walkWith.
  rewrite (untilTrue_ext _ (fun c s => (foldl (fun s m => g m s) s (subtree c), false)))
    by (apply Forall_forall; intros c _ s'; by apply visitNode_never).
  rewrite (untilTrue_never (fun c s => foldl (fun s m => g m s) s (subtree c))).
  f_equal. revert s. induction t as [|c t IH]; intros s; [done|].
  rewrite nodes_cons, foldl_app. apply IH.
Qed.

Lemma count_foldl (l : list Node) (ops total : nat) :
  foldl (fun s n => let '(ops, total) := s in
                    (if isContainer n then ops else S ops, S total))
    (ops, total) l
  = (ops + length (filter (fun m => isContainer m = false) l), total + length l).
Proof.
  revert ops total. induction l as [|n l IH]; intros ops total; simpl.
  - f_equal; lia.
  - rewrite IH, filter_cons. destruct (isContainer n);
      rewrite ?decide_True, ?decide_False by done; simpl; f_equal; lia.
Qed.

Lemma length_filter_split (l : list Node) :
  length (filter (fun m => isContainer m = false) l)
  + length (filter (fun m => isContainer m = true) l) = length l.
Proof.
  induction l as [|n l IH]; [done|]. rewrite !filter_cons.
  destruct (isContainer n); rewrite ?decide_True, ?decide_False by done; simpl; lia.
Qed.

(** X6.  [eachContainer] calls its callback on the nodes of container kind,
    each once, in document order; [countTree] counts all nodes as [total]
    and the others as [ops], so that [total] is [ops] plus the number of
    nodes [eachContainer] visits. *)
Theorem countTree_eachContainer (t : list Node) :
  eachContainer t = filter (fun m => isContainer m = true) (nodes t) /\
  countTree t = (length (filter (fun m => isContainer m = false) (nodes t)),
                 length (nodes t)) /\
  fst (countTree t) + length (eachContainer t) = snd (countTree t).
Proof.
  assert (countTree t = (length (filter (fun m => isContainer m = false) (nodes t)),
                         length (nodes t))) as Hcount.
  { unfold countTree.
    rewrite (walkWith_never _
      (fun n '(ops, total) => (if isContainer n then ops else S ops, S total)))
      by (by intros m p [ops total]).
    cbn [fst]. apply (count_foldl (nodes t) 0 0). }
  split; [apply eachContainer_filter|]. split; [done|].
  rewrite Hcount, eachContainer_filter. apply length_filter_split.
Qed.

(** ** The targets offered for a move *)

Lemma moveNode_appends (s : State) (i target : string) (n : Node) :
  NoDup (ids (tree s)) -> getNode (tree s) i = Some n ->
  i <> target ->
  target = "root" \/ isDescendant (tree s) i target = false ->
  isRoot target = true \/ target ∈ ids (tree s) ->
  ids (tree (moveNode i target Infinity s)) ≡ₚ ids (tree s) /\
  exists dest rest,
    removeNode i (tree s) = Some (n, rest) /\
    destination rest target = Some dest /\
    destination (tree (moveNode i target Infinity s)) target = Some (dest ++ [n]).
Proof.
  intros Hnd Hget Hne Hguard Hres.
  destruct (moveNode_accepted s i target Infinity n Hnd Hget Hne Hguard Hres)
    as (rest & Hrm & Hperm & -> & Hres').
  destruct (insertNode_resolved n target Infinity rest Hres') as [Hperm' _].
  split; [by rewrite Hperm', Hperm|].
  destruct (insertNode_destination n target Infinity rest Hres') as (dest & Hd & Hd').
  exists dest, rest. by rewrite <- spliceIn_Infinity.
Qed.

(** X7.  The menu of [buildMoveOptions] offers the targets that [moveNode]
    accepts, and only those: on a forest with unique ids, choosing an
    offered target keeps all ids and puts the node last in the sequence of
    the target; a container that the menu leaves out is a target on which
    [moveNode] does nothing. *)
Theorem buildMoveOptions_accepted (s : State) (i : string) (n : Node) :
  NoDup (ids (tree s)) -> getNode (tree s) i = Some n -> i <> "root" ->
  (forall target, target ∈ buildMoveOptions (tree s) i ->
     let t' := tree (moveNode i target Infinity s) in
     ids t' ≡ₚ ids (tree s) /\
     exists dest rest,
       removeNode i (tree s) = Some (n, rest) /\
       destination rest target = Some dest /\
       destination t' target = Some (dest ++ [n])) /\
  (forall c index, c ∈ eachContainer (tree s) ->
     id c ∉ buildMoveOptions (tree s) i ->
     moveNode i (id c) index s = s).
Proof.
  intros Hnd Hget Hroot. split.
  - intros target Hin. cbv zeta. unfold buildMoveOptions in Hin.
    apply elem_of_cons in Hin as [-> | Hin].
    { apply moveNode_appends; [done..|by left|by left]. }
    apply list_elem_of_fmap in Hin as (c & -> & Hc).
    apply list_elem_of_filter in Hc as [[Hne Hdesc] Hc].
    rewrite eachContainer_filter in Hc. apply list_elem_of_filter in Hc as [_ Hc].
    apply moveNode_appends; [done|done|done|by right|right].
    by apply list_elem_of_fmap_2.
  - intros c index Hc Hout. unfold buildMoveOptions in Hout.
    apply not_elem_of_cons in Hout as [Hr Hout].
    unfold moveNode. case_bool_decide as Hi; [done|].
    rewrite (bool_decide_eq_false_2 _ Hr). cbn [negb andb].
    destruct (isDescendant (tree s) i (id c)) eqn:Hdesc; [done|].
    exfalso. apply Hout. apply list_elem_of_fmap_2, list_elem_of_filter.
    split; [|done]. split; [congruence|done].
Qed.

(** ** Moving a node among its siblings *)

Lemma elem_of_ids_top (l : list Node) (x : Node) : x ∈ l -> id x ∈ ids l.
Proof.
  intros Hx. apply list_elem_of_fmap_2, elem_of_nodes. exists x. split; [done|].
  rewrite subtree_eq. set_solver.
Qed.

Lemma ids_top_sublist (l : list Node) : (id <$> l) `sublist_of` ids l.
Proof.
  induction l as [|c l IH]; [done|]. rewrite ids_cons, ids_subtree, fmap_cons.
  cbn [app]. apply sublist_skip. by apply sublist_inserts_l.
Qed.

Lemma NoDup_ids_top (l : list Node) : NoDup (ids l) -> NoDup (id <$> l).
Proof. intros H. eapply sublist_NoDup; [exact H|apply ids_top_sublist]. Qed.

Lemma NoDup_ids_inv (mid : list Node) (x : Node) (post : list Node) :
  NoDup (ids (mid ++ x :: post)) -> NoDup (id <$> subtree x).
Proof.
  rewrite ids_app, ids_cons.
  by intros (_ & _ & (H & _ & _)%NoDup_app)%NoDup_app.
Qed.

Lemma top_id_not_below (l : list Node) (x c : Node) :
  NoDup (ids l) -> x ∈ l -> c ∈ l -> id x ∉ ids (childrenOrEmpty c).
Proof.
  intros Hnd Hx Hc Hin.
  apply list_elem_of_split in Hc as (l1 & l2 & ->).
  rewrite ids_app, ids_cons, ids_subtree in Hnd.
  apply NoDup_app in Hnd as (H1 & H12 & H2).
  apply NoDup_cons in H2 as [Hc1 H2]. apply NoDup_app in H2 as (H3 & H34 & H4).
  rewrite elem_of_app, elem_of_cons in Hx. destruct Hx as [Hx|[->|Hx]].
  - apply (H12 (id x)); [by apply elem_of_ids_top|set_solver].
  - set_solver.
  - apply (H34 (id x)); [done|by apply elem_of_ids_top].
Qed.

Lemma childrenOrEmpty_node j t q cs : childrenOrEmpty (mkNode j t q (Some cs)) = cs.
Proof. done. Qed.

Lemma shift_Permutation (i : string) (dir : Z) (l : list Node) : shift i dir l ≡ₚ l.
Proof.
  unfold shift. destruct (list_find _ l) as [[k m]|] eqn:E; [|done].
  destruct (_ || _); [done|]. apply list_find_Some in E as (Hk & _).
  unfold spliceIn. cbv zeta. rewrite <- Permutation_middle, take_drop.
  symmetry. by apply delete_Permutation.
Qed.

Lemma shift_in_range (i : string) (dir : Z) (l : list Node) (k : nat) (m : Node) :
  list_find (fun n => id n = i) l = Some (k, m) ->
  (0 <= Z.of_nat k + dir < Z.of_nat (length l))%Z ->
  shift i dir l = take (Z.to_nat (Z.of_nat k + dir)) (delete k l)
                  ++ m :: drop (Z.to_nat (Z.of_nat k + dir)) (delete k l).
Proof.
  intros E Hj. unfold shift. rewrite E.
  rewrite !bool_decide_eq_false_2 by lia. cbn [orb]. unfold spliceIn. cbv zeta.
  rewrite bool_decide_eq_false_2 by lia.
  apply list_find_Some in E as (Hk & _).
  rewrite length_delete by done.
  apply lookup_lt_Some in Hk.
  by rewrite Z.min_l by lia.
Qed.

Lemma shift_out_of_range (i : string) (dir : Z) (l : list Node) (k : nat) (m : Node) :
  list_find (fun n => id n = i) l = Some (k, m) ->
  (Z.of_nat k + dir < 0 \/ Z.of_nat (length l) <= Z.of_nat k + dir)%Z ->
  shift i dir l = l.
Proof.
  intros E Hj. unfold shift. rewrite E.
  destruct Hj; [by rewrite bool_decide_eq_true_2|].
  rewrite (bool_decide_eq_true_2 (_ <= _)%Z) by done. by rewrite orb_true_r.
Qed.

Lemma shift_back (i : string) (dir : Z) (l : list Node) (k : nat) (m : Node) :
  NoDup (id <$> l) ->
  list_find (fun n => id n = i) l = Some (k, m) ->
  (0 <= Z.of_nat k + dir < Z.of_nat (length l))%Z ->
  shift i (- dir) (shift i dir l) = l.
Proof.
  intros Hnd E Hj.
  pose proof (shift_Permutation i dir l) as Hperm.
  pose proof (Permutation_length Hperm) as Hlen.
  rewrite (shift_in_range i dir l k m E Hj) in *.
  set (j := Z.to_nat (Z.of_nat k + dir)) in *.
  set (d := delete k l) in *.
  pose proof E as (Hk & Hm & _)%list_find_Some.
  pose proof (lookup_lt_Some _ _ _ Hk) as Hkl.
  assert (length d = length l - 1) as Hd by (by apply length_delete).
  assert (length (take j d) = j) as Htake by (rewrite length_take; lia).
  assert (list_find (fun n => id n = i) (take j d ++ m :: drop j d) = Some (j, m)) as E'.
  { apply list_find_Some. split_and!; [by apply list_lookup_middle|done|].
    intros j2 y Hy Hlt Hidy.
    assert (NoDup (id <$> take j d ++ m :: drop j d)) as Hnd' by by rewrite Hperm.
    assert (j2 = j); [|lia].
    eapply (NoDup_lookup _ _ _ i Hnd'); rewrite list_lookup_fmap.
    - by rewrite Hy; simpl; rewrite Hidy.
    - by rewrite list_lookup_middle; simpl; rewrite ?Hm. }
  assert (delete j (take j d ++ m :: drop j d) = d) as Hdel.
  { rewrite <- Htake at 1. by rewrite delete_middle, take_drop. }
  rewrite (shift_in_range i (- dir) _ j m E') by lia.
  rewrite Hdel. replace (Z.to_nat (Z.of_nat j + - dir)) with k by lia.
  unfold d. rewrite delete_take_drop.
  rewrite take_app_length' by (rewrite length_take; lia).
  rewrite drop_app_length' by (rewrite length_take; lia).
  by apply take_drop_middle.
Qed.

Section Siblings.
Context (i : string).
Implicit Types (f g : list Node -> list Node) (l mid post : list Node) (n x : Node).

Local Abbreviation isIt := (fun x : Node => bool_decide (id x = i)).

Lemma split_first l :
  i ∈ ids l ->
  exists mid x post, l = mid ++ x :: post /\ (i ∉ ids mid) /\ i ∈ id <$> subtree x.
Proof.
  induction l as [|c l IH]; [set_solver|]. rewrite ids_cons.
  destruct (decide (i ∈ id <$> subtree c)) as [Hc|Hc].
  - intros _. exists [], c, l. split; [done|]. split; [|done]. set_solver.
  - intros [?|Hl]%elem_of_app; [done|].
    destruct (IH Hl) as (mid & x & post & -> & Hmid & Hx).
    exists (c :: mid), x, post. split; [done|]. split; [|done].
    rewrite ids_cons. set_solver.
Qed.

Lemma below_or_it x : i ∈ id <$> subtree x -> id x <> i -> i ∈ ids (childrenOrEmpty x).
Proof. rewrite ids_subtree. set_solver. Qed.

Lemma atSiblings_at f mid x post :
  i ∉ ids mid -> i ∈ id <$> subtree x ->
  atSiblings isIt (siblingsBelow i f) f (mid ++ x :: post)
  = if bool_decide (id x = i) then Some (f (mid ++ x :: post))
    else (fun x' => mid ++ x' :: post) <$> siblingsBelow i f x.
Proof.
  intros Hmid%(Forall_passes i f) Hx. case_bool_decide as Hid.
  - apply atSiblings_hit; [done|]. by apply bool_decide_eq_true_2.
  - destruct (siblingsBelow i f x) as [x'|] eqn:Hb.
    + apply atSiblings_inside; [done|by apply bool_decide_eq_false_2|done].
    + apply siblingsBelow_None in Hb. by apply below_or_it in Hx.
Qed.

Lemma walk_at mid x post p :
  i ∉ ids mid -> i ∈ id <$> subtree x ->
  walk (mid ++ x :: post) (hasId i) p = walkNode (hasId i) p x.
Proof.
  intros Hmid Hx. unfold walk. rewrite firstSome_app_None.
  2:{ apply firstSome_None. by apply (walk_None i mid p). }
  simpl. destruct (walkNode (hasId i) p x) eqn:E; [done|].
  by apply walkNode_None in E.
Qed.

Lemma walkNode_below p n :
  id n <> i -> walkNode (hasId i) p n = walk (childrenOrEmpty n) (hasId i) (Some n).
Proof. intros H. rewrite walkNode_eq. unfold hasId at 1. by rewrite bool_decide_eq_false_2. Qed.

Lemma walkNode_it p n : id n = i -> walkNode (hasId i) p n = Some (n, p).
Proof. intros H. rewrite walkNode_eq. unfold hasId at 1. by rewrite bool_decide_eq_true_2. Qed.

Lemma siblingsBelow_node f j t q cs :
  siblingsBelow i f (mkNode j t q (Some cs))
  = setChildren (mkNode j t q (Some cs)) <$> atSiblings isIt (siblingsBelow i f) f cs.
Proof. cbn [siblingsBelow children]. by destruct (atSiblings _ _ _ _). Qed.

(** Where the scan of [siblingsBelow] applies its function: to the children
    of the parent that the walk of [getParent] reports. *)
Lemma siblingsBelow_located n :
  id n <> i -> i ∈ ids (childrenOrEmpty n) ->
  exists m par,
    (forall p, walkNode (hasId i) p n = Some (m, Some par)) /\
    (i ∈ id <$> childrenOrEmpty par) /\
    (NoDup (id <$> subtree n) -> NoDup (id <$> childrenOrEmpty par)) /\
    siblingsBelow i (fun l => l) n = Some n /\
    forall f f', f (childrenOrEmpty par) = f' (childrenOrEmpty par) ->
                 siblingsBelow i f n = siblingsBelow i f' n.
Proof.
  induction n as [j t q|j t q cs IH] using Node_ind; intros Hne Hin; [set_solver|].
  rewrite childrenOrEmpty_node in Hin.
  destruct (split_first cs Hin) as (mid & x & post & -> & Hmid & Hx).
  apply Forall_app in IH as [_ [IHx _]%Forall_cons_1].
  destruct (decide (id x = i)) as [Hid|Hid].
  - exists x, (mkNode j t q (Some (mid ++ x :: post))). split_and!.
    + intros p. rewrite walkNode_below, childrenOrEmpty_node, walk_at by done.
      by apply walkNode_it.
    + rewrite childrenOrEmpty_node, <- Hid. apply list_elem_of_fmap_2. set_solver.
    + rewrite ids_subtree_Some, childrenOrEmpty_node. intros [_ H]%NoDup_cons.
      by apply NoDup_ids_top.
    + by rewrite siblingsBelow_node, atSiblings_at, bool_decide_eq_true_2.
    + intros f f' Hff. rewrite childrenOrEmpty_node in Hff.
      rewrite !siblingsBelow_node, !atSiblings_at, !bool_decide_eq_true_2 by done.
      by rewrite Hff.
  - destruct (IHx Hid (below_or_it x Hx Hid)) as (m & par & Hw & Hsib & Hnd & Hidf & Hext).
    exists m, par. split_and!; [|done| | |].
    + intros p. rewrite walkNode_below, childrenOrEmpty_node, walk_at by done. apply Hw.
    + rewrite ids_subtree_Some. intros [_ H]%NoDup_cons. apply Hnd.
      by eapply NoDup_ids_inv.
    + by rewrite siblingsBelow_node, atSiblings_at, bool_decide_eq_false_2, Hidf.
    + intros f f' Hff.
      rewrite !siblingsBelow_node, !atSiblings_at, !bool_decide_eq_false_2 by done.
      by rewrite (Hext f f' Hff).
Qed.

Lemma withSiblings_located (t : list Node) :
  i ∈ ids t ->
  (i ∈ id <$> siblingList t i) /\
  (NoDup (ids t) -> NoDup (id <$> siblingList t i)) /\
  withSiblings t i (fun l => l) = Some t /\
  forall f f', f (siblingList t i) = f' (siblingList t i) ->
               withSiblings t i f = withSiblings t i f'.
Proof.
  intros Hin. destruct (split_first t Hin) as (mid & x & post & -> & Hmid & Hx).
  unfold siblingList, getParent, withSiblings. rewrite walk_at by done.
  destruct (decide (id x = i)) as [Hid|Hid].
  - rewrite walkNode_it by done. simpl. split_and!.
    + rewrite <- Hid. apply list_elem_of_fmap_2. set_solver.
    + apply NoDup_ids_top.
    + by rewrite atSiblings_at, bool_decide_eq_true_2.
    + intros f f' Hff. rewrite !atSiblings_at, !bool_decide_eq_true_2 by done.
      by rewrite Hff.
  - destruct (siblingsBelow_located x Hid (below_or_it x Hx Hid))
      as (m & par & Hw & Hsib & Hnd & Hidf & Hext).
    rewrite Hw. simpl. split_and!; [done| | |].
    + intros H. apply Hnd. by eapply NoDup_ids_inv.
    + by rewrite atSiblings_at, bool_decide_eq_false_2, Hidf.
    + intros f f' Hff. rewrite !atSiblings_at, !bool_decide_eq_false_2 by done.
      by rewrite (Hext f f' Hff).
Qed.

Section After.
Context (f : list Node -> list Node) (Hf : forall l, f l ≡ₚ l).

Lemma hit_after l x g p :
  NoDup (ids l) -> x ∈ l -> id x = i ->
  atSiblings isIt (siblingsBelow i g) g (f l) = Some (g (f l)) /\
  exists y, walk (f l) (hasId i) p = Some (y, p).
Proof.
  intros Hnd Hx Hid.
  assert (i ∈ ids (f l)) as Hin.
  { rewrite (ids_Permutation _ _ (Hf l)), <- Hid. by apply elem_of_ids_top. }
  destruct (split_first _ Hin) as (mid & y & post & E & Hmid & Hy).
  assert (id y = i) as Hidy.
  { destruct (decide (id y = i)) as [|Hne]; [done|]. exfalso.
    apply (top_id_not_below l x y Hnd Hx); [|rewrite Hid; by apply below_or_it].
    rewrite <- (Hf l), E. set_solver. }
  rewrite E. split.
  - by rewrite atSiblings_at, bool_decide_eq_true_2.
  - exists y. rewrite walk_at by done. by apply walkNode_it.
Qed.

(** After the scan has applied [f] in place, a second scan finds the same
    array of siblings again. *)
Lemma siblingsBelow_after n : forall n',
  id n <> i -> NoDup (id <$> subtree n) -> siblingsBelow i f n = Some n' ->
  id n' = id n /\
  id <$> subtree n' ≡ₚ id <$> subtree n /\
  (exists m par m' par',
     (forall p, walkNode (hasId i) p n = Some (m, Some par)) /\
     (forall p, walkNode (hasId i) p n' = Some (m', Some par')) /\
     childrenOrEmpty par' = f (childrenOrEmpty par)) /\
  forall g, siblingsBelow i g n' = siblingsBelow i (fun l => g (f l)) n.
Proof.
  induction n as [j t q|j t q cs IH] using Node_ind; intros n' Hne Hnd; [done|].
  rewrite siblingsBelow_node. rewrite ids_subtree_Some in Hnd.
  apply NoDup_cons in Hnd as [_ Hnd].
  destruct (atSiblings _ _ f cs) as [cs'|] eqn:Hat; [|done]. intros [= <-].
  assert (i ∈ ids cs) as Hin.
  { apply dec_stable. intros H. apply (Forall_passes i f) in H.
    apply (atSiblings_None _ _ f) in H. congruence. }
  destruct (split_first cs Hin) as (mid & x & post & -> & Hmid & Hx).
  rewrite atSiblings_at in Hat by done.
  apply Forall_app in IH as [_ [IHx _]%Forall_cons_1].
  split; [done|]. unfold setChildren. cbn [id toolId params] in *.
  case_bool_decide as Hid.
  - injection Hat as <-.
    assert (x ∈ mid ++ x :: post) as Hxin by set_solver.
    split_and!.
    + rewrite !ids_subtree_Some. by rewrite (ids_Permutation _ _ (Hf _)).
    + destruct (hit_after _ x (fun l => l)
                  (Some (mkNode j t q (Some (f (mid ++ x :: post))))) Hnd Hxin Hid)
        as [_ [y Hy]].
      exists x, (mkNode j t q (Some (mid ++ x :: post))), y,
             (mkNode j t q (Some (f (mid ++ x :: post)))).
      split_and!; [| |done].
      * intros p. rewrite walkNode_below, childrenOrEmpty_node, walk_at by done.
        by apply walkNode_it.
      * intros p. by rewrite walkNode_below, childrenOrEmpty_node.
    + intros g. rewrite !siblingsBelow_node.
      destruct (hit_after _ x g None Hnd Hxin Hid) as [-> _].
      by rewrite atSiblings_at, bool_decide_eq_true_2.
  - destruct (siblingsBelow i f x) as [x'|] eqn:Hb; [|done].
    injection Hat as <-.
    destruct (IHx x' Hid (NoDup_ids_inv _ _ _ Hnd) eq_refl)
      as (Hidx & Hperm & (m & par & m' & par' & Hw & Hw' & Hch) & Hcomp).
    assert (i ∈ id <$> subtree x') as Hx' by by rewrite Hperm.
    assert (id x' <> i) as Hid' by congruence.
    split_and!.
    + rewrite !ids_subtree_Some, !ids_app, !ids_cons. by rewrite Hperm.
    + exists m, par, m', par'. split_and!; [| |done]; intros p;
        rewrite walkNode_below, childrenOrEmpty_node, walk_at by done; auto.
    + intros g.
      rewrite !siblingsBelow_node, !atSiblings_at, !bool_decide_eq_false_2 by done.
      rewrite Hcomp. by destruct (siblingsBelow i _ x).
Qed.

Lemma withSiblings_after (t t' : list Node) :
  NoDup (ids t) -> withSiblings t i f = Some t' ->
  ids t' ≡ₚ ids t /\
  siblingList t' i = f (siblingList t i) /\
  forall g, withSiblings t' i g = withSiblings t i (fun l => g (f l)).
Proof.
  intros Hnd Hat.
  assert (i ∈ ids t) as Hin.
  { apply dec_stable. intros H%(withSiblings_None t i f). congruence. }
  destruct (split_first t Hin) as (mid & x & post & -> & Hmid & Hx).
  unfold siblingList, getParent, withSiblings in *.
  rewrite atSiblings_at in Hat by done. rewrite (walk_at mid x post) by done.
  case_bool_decide as Hid.
  - injection Hat as <-.
    assert (x ∈ mid ++ x :: post) as Hxin by set_solver.
    split_and!.
    + by rewrite (ids_Permutation _ _ (Hf _)).
    + destruct (hit_after _ x (fun l => l) None Hnd Hxin Hid) as [_ [y ->]].
      by rewrite walkNode_it.
    + intros g. destruct (hit_after _ x g None Hnd Hxin Hid) as [-> _].
      by rewrite atSiblings_at, bool_decide_eq_true_2.
  - destruct (siblingsBelow i f x) as [x'|] eqn:Hb; [|done].
    injection Hat as <-.
    destruct (siblingsBelow_after x x' Hid (NoDup_ids_inv _ _ _ Hnd) Hb)
      as (Hidx & Hperm & (m & par & m' & par' & Hw & Hw' & Hch) & Hcomp).
    assert (i ∈ id <$> subtree x') as Hx' by by rewrite Hperm.
    assert (id x' <> i) as Hid' by congruence.
    split_and!.
    + rewrite !ids_app, !ids_cons. by rewrite Hperm.
    + rewrite walk_at, Hw, Hw' by done. done.
    + intros g. rewrite !atSiblings_at, !bool_decide_eq_false_2 by done.
      rewrite Hcomp. by destruct (siblingsBelow i _ x).
Qed.
End After.
End Siblings.

(** X8.  [reorderSibling] works on the array that holds the node: on a
    forest with unique ids, the array of siblings that [getParent] leads to
    after the call is the one before it with the node taken out and put
    back [dir] places further, and the forest has the same ids as
    before. *)
Theorem reorderSibling_shifts_siblings (s : State) (i : string) (dir : Z) :
  NoDup (ids (tree s)) ->
  let s' := reorderSibling i dir s in
  siblingList (tree s') i = shift i dir (siblingList (tree s) i) /\
  ids (tree s') ≡ₚ ids (tree s).
Proof.
  intros Hnd. cbv zeta. unfold reorderSibling.
  destruct (withSiblings (tree s) i (shift i dir)) as [t'|] eqn:Hat.
  - destruct (withSiblings_after i (shift i dir) (shift_Permutation i dir) _ _ Hnd Hat)
      as (Hperm & Hsib & _).
    by destruct s.
  - split; [|done]. apply withSiblings_None in Hat.
    assert (siblingList (tree s) i = tree s) as ->.
    { unfold siblingList, getParent.
      by rewrite (proj2 (walk_None i (tree s) None) Hat). }
    unfold shift.
    destruct (list_find _ (tree s)) as [[k m]|] eqn:E; [|done].
    apply list_find_Some in E as (Hk & Hm & _). exfalso. apply Hat.
    rewrite <- Hm. apply elem_of_ids_top. by eapply list_elem_of_lookup_2.
Qed.

(** X9.  What [reorderSibling] does to the array it works on: when the new
    place [i + dir] of the node falls outside the array, the array is left
    as it is (the first sibling does not move up, the last does not move
    down); otherwise the node stands at place [i + dir] and the other
    nodes keep their order. *)
Theorem shift_places (i : string) (dir : Z) (l : list Node) (k : nat) (m : Node) :
  list_find (fun n => id n = i) l = Some (k, m) ->
  let j := (Z.of_nat k + dir)%Z in
  ((j < 0 \/ Z.of_nat (length l) <= j)%Z -> shift i dir l = l) /\
  ((0 <= j < Z.of_nat (length l))%Z ->
     shift i dir l !! Z.to_nat j = Some m /\
     delete (Z.to_nat j) (shift i dir l) = delete k l).
Proof.
  intros E j. split; [by apply (shift_out_of_range i dir l k m)|]. intros Hj.
  rewrite (shift_in_range i dir l k m E Hj). fold j.
  pose proof E as (Hk & _)%list_find_Some.
  pose proof (lookup_lt_Some _ _ _ Hk) as Hkl.
  assert (length (take (Z.to_nat j) (delete k l)) = Z.to_nat j) as Htake.
  { rewrite length_take, length_delete by done. lia. }
  split; [by apply list_lookup_middle|].
  rewrite <- Htake at 1. by rewrite delete_middle, take_drop.
Qed.

(** X10.  A call of [reorderSibling] that changed the state is undone by the
    call in the opposite direction, on a forest with unique ids. *)
Theorem reorderSibling_round_trip (s : State) (i : string) (dir : Z) :
  NoDup (ids (tree s)) ->
  reorderSibling i dir s <> s ->
  reorderSibling i (- dir) (reorderSibling i dir s) = s.
Proof.
  intros Hnd Hchg. unfold reorderSibling in *.
  destruct (withSiblings (tree s) i (shift i dir)) as [t'|] eqn:Hat; [|done].
  assert (i ∈ ids (tree s)) as Hin.
  { apply dec_stable. intros H%(withSiblings_None _ i (shift i dir)). congruence. }
  destruct (withSiblings_located i (tree s) Hin) as (Hsib & Hnds & Hsame & Hext).
  specialize (Hnds Hnd).
  destruct (withSiblings_after i (shift i dir) (shift_Permutation i dir) _ _ Hnd Hat)
    as (_ & _ & Hcomp).
  destruct (list_find (fun n => id n = i) (siblingList (tree s) i)) as [[k m]|] eqn:E.
  2:{ apply list_find_None in E. apply list_elem_of_fmap in Hsib as (x & -> & Hx).
      rewrite Forall_forall in E. by destruct (E x Hx). }
  destruct (decide (0 <= Z.of_nat k + dir < Z.of_nat (length (siblingList (tree s) i)))%Z)
    as [Hj|Hj].
  - cbn [tree setTree]. rewrite Hcomp.
    rewrite (Hext _ (fun l => l)), Hsame by (by eapply shift_back).
    by destruct s.
  - exfalso. apply Hchg.
    rewrite (Hext _ (fun l => l)), Hsame in Hat
      by (eapply shift_out_of_range; [done|lia]).
    injection Hat as <-. by destruct s.
Qed.

(** ** Patching the parameters *)

Ltac list_normal :=
  repeat (rewrite <- app_assoc || rewrite <- app_comm_cons).

Lemma mutateNode_None_absent (i : string) (f : Node -> Node) (n : Node) :
  mutateNode i f n = None -> i ∉ id <$> subtree n.
Proof.
  intros H. apply (walkNode_None i n None). by eapply walkNode_None_of_mutate.
Qed.

Lemma Forall_mutateNode_None (i : string) (f : Node -> Node) (l : list Node) :
  Forall (fun y => mutateNode i f y = None) l -> i ∉ ids l.
Proof.
  induction 1 as [|c l Hc _ IH]; [set_solver|].
  rewrite ids_cons. apply mutateNode_None_absent in Hc. set_solver.
Qed.

Lemma subtree_same_children (n n' : Node) :
  children n' = children n -> subtree n' = n' :: nodes (childrenOrEmpty n).
Proof. intros H. rewrite subtree_eq. unfold childrenOrEmpty. by rewrite H. Qed.

(** A write through the reference of [getNode] that leaves the children
    alone changes the own fields of that one node and of no other. *)
Lemma mutateNode_own (i : string) (f : Node -> Node) (n : Node) : forall r n',
  mutateNode i f n = Some (r, n') -> children (f r) = children r ->
  exists before after,
    subtree n = before ++ r :: after /\ (i ∉ id <$> before) /\
    own <$> subtree n' = (own <$> before) ++ own (f r) :: (own <$> after).
Proof.
  induction n as [j t q|j t q cs IH] using Node_ind; intros r n';
    rewrite mutateNode_eq; case_bool_decide as Hid.
  - intros [= <- <-] Hch. exists [], []. split; [done|]. split; [set_solver|].
    by rewrite (subtree_same_children _ _ Hch).
  - done.
  - intros [= <- <-] Hch. exists [], (nodes cs). split; [apply subtree_Some|].
    split; [set_solver|]. by rewrite (subtree_same_children _ _ Hch).
  - rewrite childrenOrEmpty_node.
    destruct (firstHit (mutateNode i f) cs) as [[r0 cs']|] eqn:Hfh; [|done].
    intros [= <- <-] Hch.
    apply firstHit_Some in Hfh as (l1 & x & x' & l2 & -> & -> & Hl1 & Hx).
    apply Forall_app in IH as [_ [IHx _]%Forall_cons_1].
    destruct (IHx _ _ Hx Hch) as (before & after & Hsub & Hbef & Hown).
    exists (mkNode j t q (Some (l1 ++ x :: l2)) :: nodes l1 ++ before),
           (after ++ nodes l2).
    split_and!.
    + rewrite subtree_Some, nodes_app, nodes_cons, Hsub.
      by list_normal.
    + apply Forall_mutateNode_None in Hl1. rewrite fmap_cons, fmap_app.
      cbn [id] in *. unfold ids in Hl1. set_solver.
    + unfold setChildren. cbn [id toolId params].
      rewrite subtree_Some, nodes_app, nodes_cons, !fmap_cons, !fmap_app, Hown.
      rewrite ?fmap_app, ?fmap_cons. by list_normal.
Qed.

Lemma mutate_own (t : list Node) (i : string) (f : Node -> Node)
    (r : Node) (t' : list Node) :
  mutate t i f = Some (r, t') -> children (f r) = children r ->
  exists before after,
    nodes t = before ++ r :: after /\ (i ∉ id <$> before) /\
    own <$> nodes t' = (own <$> before) ++ own (f r) :: (own <$> after).
Proof.
  intros (l1 & x & x' & l2 & -> & -> & Hl1 & Hx)%firstHit_Some Hch.
  destruct (mutateNode_own i f x _ _ Hx Hch) as (before & after & Hsub & Hbef & Hown).
  exists (nodes l1 ++ before), (after ++ nodes l2). split_and!.
  - rewrite nodes_app, nodes_cons, Hsub. by list_normal.
  - apply Forall_mutateNode_None in Hl1. rewrite fmap_app. unfold ids in Hl1.
    set_solver.
  - rewrite nodes_app, nodes_cons, !fmap_app, Hown, ?fmap_app, ?fmap_cons.
    by list_normal.
Qed.

(** X11.  [updateParams] merges the patch into the parameters of the node
    that [getNode] returns, the patch winning on every key it has, and
    touches nothing else: in document order, the ids, tools and parameters
    of all other nodes are as before, and so are the children of the
    node. *)
Theorem updateParams_patches (s : State) (i : string) (patch : gmap string string)
    (n : Node) :
  getNode (tree s) i = Some n ->
  let t' := tree (updateParams i patch s) in
  getNode t' i = Some (mkNode i (toolId n) (patch ∪ params n) (children n)) /\
  (forall k, (patch ∪ params n) !! k
             = match patch !! k with Some v => Some v | None => params n !! k end) /\
  exists before after,
    nodes (tree s) = before ++ n :: after /\ (i ∉ id <$> before) /\
    own <$> nodes t'
      = (own <$> before) ++ (i, toolId n, patch ∪ params n) :: (own <$> after).
Proof.
  intros Hget t'. subst t'. unfold updateParams. rewrite Hget.
  destruct (mutate_getNode (tree s) i (patched patch) n Hget) as [t' Hmut].
  rewrite Hmut. cbn [tree setTree].
  pose proof (getNode_Some _ _ _ Hget) as [_ Hid].
  split_and!.
  - rewrite (getNode_mutate _ _ _ _ _ Hmut) by done. unfold patched. by rewrite Hid.
  - intros k. rewrite lookup_union. by destruct (patch !! k), (params n !! k).
  - destruct (mutate_own _ _ _ _ _ Hmut eq_refl) as (before & after & H1 & H2 & H3).
    exists before, after. split_and!; [done..|].
    rewrite H3. unfold own, patched. cbn [id toolId params]. by rewrite Hid.
Qed.

(** ** New nodes *)

Lemma targetOptions_resolve (t : list Node) (parentId : string) :
  parentId ∈ targetOptions t -> isRoot parentId = true \/ parentId ∈ ids t.
Proof.
  unfold targetOptions. intros [-> | Hin]%elem_of_cons; [by left|right].
  apply list_elem_of_fmap in Hin as (c & -> & Hc).
  rewrite eachContainer_filter in Hc. apply list_elem_of_filter in Hc as [_ Hc].
  by apply list_elem_of_fmap_2.
Qed.

Lemma newNode_subtree (def : Def) (fresh : string) :
  id <$> subtree (newNode def fresh) = [fresh].
Proof. destruct def as [t|]; [|done]. simpl. by destruct (container t). Qed.

Lemma newNode_shape (tool : string) (def : Def) (fresh : string) :
  lookupTool tool = Some def ->
  children (newNode def fresh)
    = if isContainer (newNode def fresh) then Some [] else None.
Proof.
  destruct def as [t|]; [|done]. intros Hdef.
  pose proof Hdef as [_ Hkey]%lookupTool_Entry%TOOL_BY_ID_Some.
  unfold isContainer. cbn [newNode toolId children]. by rewrite Hkey, Hdef.
Qed.

(** X12.  [addNode] with a tool of the registry and a parent taken from the
    "Add to" dropdown, on a forest with unique ids and with an id not in
    use: the new node is the last one in the sequence of the parent,
    [getNode] finds it under its id, the ids stay unique, and the node has
    a [children] array exactly when its tool is a container. *)
Theorem addNode_appends (s : State) (tool parentId fresh : string) (def : Def) :
  NoDup (ids (tree s)) -> fresh ∉ ids (tree s) ->
  lookupTool tool = Some def ->
  parentId ∈ targetOptions (tree s) ->
  let new := newNode def fresh in
  let t' := tree (addNode tool parentId fresh s) in
  ids t' ≡ₚ fresh :: ids (tree s) /\
  NoDup (ids t') /\
  getNode t' fresh = Some new /\
  (exists dest, destination (tree s) parentId = Some dest /\
                destination t' parentId = Some (dest ++ [new])) /\
  children new = if isContainer new then Some [] else None.
Proof.
  intros Hnd Hfresh Hdef Hpar%targetOptions_resolve new t'. subst new t'.
  unfold addNode. rewrite Hdef. cbn [tree setTree].
  destruct (insertNode_resolved (newNode def fresh) parentId Infinity (tree s) Hpar)
    as [Hperm Hin].
  rewrite newNode_subtree in Hperm.
  assert (NoDup (ids (insertNode (newNode def fresh) parentId Infinity (tree s))))
    as Hnd' by (rewrite Hperm; by apply NoDup_cons).
  split_and!; [done|done| | |by eapply newNode_shape].
  - replace fresh with (id (newNode def fresh)) at 2 by by destruct def.
    by apply getNode_unique.
  - destruct (insertNode_destination (newNode def fresh) parentId Infinity (tree s) Hpar)
      as (dest & Hd & Hd').
    exists dest. by rewrite <- spliceIn_Infinity.
Qed.

(** ** Ids stay unique *)

Lemma insertNode_NoDup (node : Node) (parentId : string) (index : Index)
    (t : list Node) :
  NoDup ((id <$> subtree node) ++ ids t) -> NoDup (ids (insertNode node parentId index t)).
Proof.
  intros Hnd. destruct (insertNode_ids_cases node parentId index t) as [-> | ->];
    [done|]. by apply NoDup_app in Hnd as (_ & _ & ?).
Qed.

Lemma addNode_NoDup (tool parentId fresh : string) (s : State) :
  NoDup (ids (tree s)) -> fresh ∉ ids (tree s) ->
  NoDup (ids (tree (addNode tool parentId fresh s))).
Proof.
  intros Hnd Hfresh. unfold addNode. destruct (lookupTool tool) as [def|]; [|done].
  cbn [tree setTree]. apply insertNode_NoDup. rewrite newNode_subtree.
  by apply NoDup_cons.
Qed.

Lemma updateParams_ids (i : string) (patch : gmap string string) (s : State) :
  ids (tree (updateParams i patch s)) ≡ₚ ids (tree s).
Proof.
  unfold updateParams. destruct (getNode (tree s) i) as [n|]; [|done].
  destruct (mutate (tree s) i (patched patch)) as [[r t']|] eqn:Hmut; [|done].
  cbn [tree setTree]. apply (mutate_ids _ _ _ [] _ _ Hmut).
  by rewrite !ids_subtree.
Qed.

Lemma moveNode_NoDup (i target : string) (index : Index) (s : State) :
  NoDup (ids (tree s)) -> NoDup (ids (tree (moveNode i target index s))).
Proof.
  intros Hnd. unfold moveNode. case_bool_decide; [done|].
  destruct (_ && _); [done|].
  destruct (removeNode i (tree s)) as [[n rest]|] eqn:Hrm; [|done].
  apply removeNode_Some in Hrm as (_ & _ & Hperm). cbn [tree setTree].
  apply insertNode_NoDup. by rewrite <- Hperm.
Qed.

Lemma deleteNode_NoDup (i : string) (ok : bool) (s : State) :
  NoDup (ids (tree s)) -> NoDup (ids (tree (deleteNode i ok s))).
Proof.
  intros Hnd. unfold deleteNode. destruct (getNode (tree s) i) as [found|]; [|done].
  destruct ok; [|done]. cbn [tree].
  destruct (removeNode i (tree s)) as [[n rest]|] eqn:Hrm; [|done].
  apply removeNode_Some in Hrm as (_ & _ & Hperm). rewrite Hperm in Hnd.
  by apply NoDup_app in Hnd as (_ & _ & ?).
Qed.

Lemma reorderSibling_NoDup (i : string) (dir : Z) (s : State) :
  NoDup (ids (tree s)) -> NoDup (ids (tree (reorderSibling i dir s))).
Proof.
  intros Hnd. unfold reorderSibling.
  destruct (withSiblings (tree s) i (shift i dir)) as [t'|] eqn:Hat; [|done].
  destruct (withSiblings_after i (shift i dir) (shift_Permutation i dir) _ _ Hnd Hat)
    as (Hperm & _). cbn [tree setTree]. by rewrite Hperm.
Qed.

Lemma perform_NoDup (a : Action) (s : State) :
  NoDup (ids (tree s)) -> freshFor a s -> NoDup (ids (tree (perform a s))).
Proof.
  intros Hnd Hfresh. destruct a; cbn [perform freshFor] in *; try done.
  - by apply addNode_NoDup.
  - by rewrite updateParams_ids.
  - by apply moveNode_NoDup.
  - by apply deleteNode_NoDup.
  - by apply reorderSibling_NoDup.
Qed.

(** X13.  Unique ids are an invariant of the store: whatever sequence of
    mutations is performed, the ids of the forest stay pairwise distinct,
    provided every id that [addNode] gives to a new node is not in use at
    that moment. *)
Theorem ids_stay_unique (acts : list Action) (s : State) :
  NoDup (ids (tree s)) -> freshRun acts s -> NoDup (ids (tree (run acts s))).
Proof.
  revert s. induction acts as [|a acts IH]; intros s Hnd Hfresh; [done|].
  destruct Hfresh as [Ha Hrest]. apply IH; [|done]. by apply perform_NoDup.
Qed.

(** ** The target of new nodes, and the two sets *)

(** X14.  [setTargetParent] stores ["root"] for the empty id, and that
    changes nothing for [insertNode], which takes both for the root:
    inserting under the stored target is inserting under the id given. *)
Theorem setTargetParent_same_destination (i : string) (s : State) (node : Node)
    (index : Index) (t : list Node) :
  targetParentId (setTargetParent i s) <> "" /\
  insertNode node (targetParentId (setTargetParent i s)) index t
    = insertNode node i index t /\
  tree (setTargetParent i s) = tree s.
Proof.
  unfold setTargetParent. cbn [targetParentId tree].
  destruct (decide (i = "")) as [->|Hi].
  - rewrite bool_decide_eq_true_2 by done. by split_and!.
  - by rewrite bool_decide_eq_false_2.
Qed.

Lemma toggle_toggle (i : string) (X : gset string) : toggle i (toggle i X) = X.
Proof.
  unfold toggle. destruct (decide (i ∈ X)) as [Hi|Hi].
  - rewrite (bool_decide_eq_true_2 (i ∈ X)) by done.
    rewrite (bool_decide_eq_false_2 (i ∈ X ∖ {[i]})) by set_solver.
    apply set_eq. intros x. destruct (decide (x = i)); set_solver.
  - rewrite (bool_decide_eq_false_2 (i ∈ X)) by done.
    rewrite (bool_decide_eq_true_2 (i ∈ X ∪ {[i]})) by set_solver. set_solver.
Qed.

Lemma elem_of_toggle (i j : string) (X : gset string) :
  j ∈ toggle i X <-> (j = i /\ (i ∉ X)) \/ (j <> i /\ j ∈ X).
Proof.
  unfold toggle. case_bool_decide; destruct (decide (j = i)); set_solver.
Qed.

(** X15.  [toggleCollapsed] and [toggleExpanded] flip the membership of the
    one id in their set and of no other id, leave the rest of the state
    alone, and undo themselves when called twice. *)
Theorem toggles_flip_one_id (i : string) (s : State) :
  (forall j, j ∈ collapsed (toggleCollapsed i s)
             <-> (j = i /\ (i ∉ collapsed s)) \/ (j <> i /\ j ∈ collapsed s)) /\
  (forall j, j ∈ expanded (toggleExpanded i s)
             <-> (j = i /\ (i ∉ expanded s)) \/ (j <> i /\ j ∈ expanded s)) /\
  expanded (toggleCollapsed i s) = expanded s /\
  collapsed (toggleExpanded i s) = collapsed s /\
  tree (toggleCollapsed i s) = tree s /\
  tree (toggleExpanded i s) = tree s /\
  toggleCollapsed i (toggleCollapsed i s) = s /\
  toggleExpanded i (toggleExpanded i s) = s.
Proof.
  split_and!; try done.
  - intros j. apply elem_of_toggle.
  - intros j. apply elem_of_toggle.
  - unfold toggleCollapsed. cbn. rewrite toggle_toggle. by destruct s.
  - unfold toggleExpanded. cbn. rewrite toggle_toggle. by destruct s.
Qed.

(** ** Loop numbers and blank lines *)

Lemma append_empty (s : string) : s +:+ "" = s.
Proof.
  induction s as [|c s IH]; [done|].
  change (String c (s +:+ "") = String c s). by rewrite IH.
Qed.

Lemma emitChildren_split (p w : Node) (before after : list Node)
    (ctx : EmitContext) (d : nat) :
  children p = Some (before ++ w :: after) ->
  emitChildren p ctx d =
    flat_map (fun c => fst (emitNode c (indented ctx d))) before
    ++ fst (emitNode w (indented ctx d))
    ++ flat_map (fun c => fst (emitNode c (indented ctx d))) after.
Proof.
  intros Hcs. unfold emitChildren, childrenOrEmpty. rewrite Hcs.
  cbn [default from_option Datatypes.id]. by rewrite flat_map_app.
Qed.

Ltac split_around :=
  match goal with
  | |- exists pre post, ?l1 ++ (?A ++ ?E ++ ?B) ++ ?l2 = _ =>
      exists (l1 ++ A), (B ++ l2); by rewrite <- !app_assoc
  end.

Lemma while_rawLines (w : Node) (c : EmitContext) :
  toolId w = "while-block" ->
  rawLines w c =
    ("WHILE [" +:+ param w "left" +:+ " " +:+ param w "op" +:+ " "
       +:+ param w "right" +:+ "] DO" +:+ pretty (Nat.min (loopDepth c + 1) 9))
    :: emitChildren w c 1
    ++ [ "END" +:+ pretty (Nat.min (loopDepth c + 1) 9); "" ].
Proof. intros Hw. unfold rawLines. rewrite Hw. reflexivity. Qed.

(** X16.  The number of a WHILE loop, in its [DO] line and in its [END]
    line, counts the IF blocks and WHILE loops around it, not the loops
    alone, and stops at 9: emitted in a context of loop depth [k] the loop
    is [DO min(k+1, 9)] ... [END min(k+1, 9)] around the lines of its
    children; placed in an IF block or a WHILE loop that is emitted at
    depth [k] it is [DO min(k+2, 9)] ... [END min(k+2, 9)], and placed in a
    folder it is [DO min(k+1, 9)] ... [END min(k+1, 9)]. *)
Theorem while_index_counts_blocks (p w : Node) (ctx : EmitContext)
    (before after : list Node) :
  toolId w = "while-block" -> isContainer p = true ->
  children p = Some (before ++ w :: after) ->
  let d := if bool_decide (toolId p = "folder") then 0 else 1 in
  let doLine k := "WHILE [" +:+ param w "left" +:+ " " +:+ param w "op" +:+ " "
                    +:+ param w "right" +:+ "] DO" +:+ pretty (Nat.min k 9) in
  let endLine k := "END" +:+ pretty (Nat.min k 9) in
  let loopLines c k := doLine k :: emitChildren w c 1 ++ [ endLine k; "" ] in
  head (rawLines w ctx) = Some (doLine (loopDepth ctx + 1)) /\
  head (rawLines w (indented ctx d)) = Some (doLine (loopDepth ctx + d + 1)) /\
  rawLines w ctx = loopLines ctx (loopDepth ctx + 1) /\
  rawLines w (indented ctx d)
    = loopLines (indented ctx d) (loopDepth ctx + d + 1) /\
  fst (emitNode w (indented ctx d))
    = atLevel (indent ctx + d)
        <$> loopLines (indented ctx d) (loopDepth ctx + d + 1) /\
  exists pre post,
    rawLines p ctx = pre ++ fst (emitNode w (indented ctx d)) ++ post.
Proof.
  intros Hw Hcont Hcs d doLine endLine loopLines. subst doLine endLine loopLines.
  cbv beta. rewrite emitNode_lines, !(while_rawLines w _ Hw).
  split; [reflexivity|]. unfold isContainer in Hcont.
  destruct (lookupTool (toolId p)) as [[def|]|] eqn:Hdef; try discriminate Hcont.
  unfold rawLines. rewrite Hdef.
  apply lookupTool_Entry, TOOL_BY_ID_Some in Hdef as [Hin Hkey].
  subst d. rewrite <- Hkey. clear Hkey.
  tool_cases Hin; try discriminate Hcont; cbn [gcode key container].
  - rewrite bool_decide_eq_true_2 by done.
    do 4 (split; [reflexivity|]).
    unfold folder_gcode. cbn [fst].
    rewrite (emitChildren_split p w before after ctx 0 Hcs), emitNode_lines,
      (while_rawLines w _ Hw).
    split_around.
  - rewrite bool_decide_eq_false_2 by done.
    do 4 (split; [reflexivity|]).
    unfold if_block_gcode, nextLabel. cbn [fst].
    rewrite (emitChildren_split p w before after ctx 1 Hcs), emitNode_lines,
      (while_rawLines w _ Hw).
    split_around.
  - rewrite bool_decide_eq_false_2 by done.
    do 4 (split; [reflexivity|]).
    unfold while_block_gcode. cbn [fst].
    rewrite (emitChildren_split p w before after ctx 1 Hcs), emitNode_lines,
      (while_rawLines w _ Hw).
    split_around.
Qed.

Lemma last_app_two {A} (l : list A) (x y : A) : last (l ++ [x; y]) = Some y.
Proof. by rewrite last_app. Qed.

(** X17.  [emitNode] puts the indentation of the context in front of the
    empty lines as well: an empty line of a callback comes out as the bare
    indentation.  Every tool of the registry closes its lines with an empty
    one, so the emission of a node with a known tool ends with such a
    line. *)
Theorem empty_lines_are_indented (n : Node) (ctx : EmitContext) :
  (forall k, rawLines n ctx !! k = Some "" ->
             fst (emitNode n ctx) !! k = Some (repeat2 (indent ctx))) /\
  (forall t, lookupTool (toolId n) = Some (Entry t) ->
             last (fst (emitNode n ctx)) = Some (repeat2 (indent ctx))).
Proof.
  rewrite emitNode_lines. split.
  - intros k Hk. rewrite list_lookup_fmap, Hk. simpl. unfold atLevel.
    by rewrite append_empty.
  - intros t Hdef. rewrite fmap_last. unfold rawLines. rewrite Hdef.
    apply lookupTool_Entry, TOOL_BY_ID_Some in Hdef as [Hin _].
    assert (last (fst (gcode t (emitChildren n) n ctx ctx)) = Some "") as ->.
    { tool_cases Hin; cbn [gcode]; try reflexivity.
      - unfold folder_gcode. cbn [fst]. by rewrite app_assoc, last_app_two.
      - unfold if_block_gcode, nextLabel. cbn [fst]. by rewrite app_assoc, last_app_two.
      - unfold while_block_gcode. cbn [fst]. by rewrite app_assoc, last_app_two. }
    simpl. unfold atLevel. by rewrite append_empty.
Qed.

(** ** Labels of the editor fields *)

Ltac each_char c :=
  destruct c as [[] [] [] [] [] [] [] []]; vm_compute; try done.

Lemma capital_not_blank (c : Ascii.ascii) : isCapital c = true -> c <> blank.
Proof. each_char c. Qed.

Lemma upper_capital (c : Ascii.ascii) : isCapital c = true -> upper c = c.
Proof. each_char c. Qed.

Lemma upper_not_blank (c : Ascii.ascii) : c <> blank -> upper c <> blank.
Proof. each_char c. Qed.

Lemma dropBlanks_length (s : string) : String.length (dropBlanks s) <= String.length s.
Proof.
  induction s as [|c s IH]; [done|]. cbn [dropBlanks].
  case_bool_decide; cbn [String.length]; lia.
Qed.

Lemma dropBlanks_fixed (c : Ascii.ascii) (s : string) :
  dropBlanks (String c s) = String c s -> c <> blank /\ dropBlanks s = s.
Proof.
  cbn [dropBlanks]. case_bool_decide as Hc; [|by intros [= ?]].
  intros H. pose proof (dropBlanks_length s) as Hlen. rewrite H in Hlen.
  cbn [String.length] in Hlen. lia.
Qed.

Lemma dropBlanks_spaceCapitals (s : string) :
  dropBlanks s = s -> dropBlanks (spaceCapitals s) = s.
Proof.
  induction s as [|c s IH]; [done|]. intros [Hc Hs]%dropBlanks_fixed.
  cbn [spaceCapitals]. destruct (isCapital c); cbn [dropBlanks];
    rewrite ?(bool_decide_eq_true_2 (blank = blank)) by done;
    rewrite (bool_decide_eq_false_2 (c = blank)) by done; by rewrite IH.
Qed.

Lemma spaceCapitals_length (s : string) :
  String.length (spaceCapitals s) = String.length s + capitals s.
Proof.
  induction s as [|c s IH]; [done|]. cbn [spaceCapitals capitals].
  destruct (isCapital c); cbn [String.length]; lia.
Qed.

(** X18.  [toLabel] lengthens a key by one blank per capital letter; a key
    that begins with a capital letter gets a label that begins with a
    blank; and for a key without blanks, taking the blanks out of the label
    gives the key back with its first letter in upper case. *)
Theorem toLabel_spec (key : string) :
  String.length (toLabel key) = String.length key + capitals key /\
  (forall c rest, key = String c rest -> isCapital c = true ->
     toLabel key = String blank (String c (spaceCapitals rest))) /\
  (dropBlanks key = key -> dropBlanks (toLabel key) = capitalize key).
Proof.
  unfold toLabel. split_and!.
  - rewrite <- spaceCapitals_length. by destruct (spaceCapitals key).
  - intros c rest -> Hc. cbn [spaceCapitals]. by rewrite Hc.
  - destruct key as [|c rest]; [done|]. intros [Hc Hs]%dropBlanks_fixed.
    cbn [spaceCapitals capitalize]. destruct (isCapital c) eqn:Hcap.
    + cbn [capitalize dropBlanks].
      rewrite (bool_decide_eq_true_2 (upper blank = blank)) by done.
      rewrite (bool_decide_eq_false_2 (c = blank)) by done.
      by rewrite dropBlanks_spaceCapitals, upper_capital.
    + cbn [capitalize dropBlanks].
      rewrite (bool_decide_eq_false_2 (upper c = blank)) by by apply upper_not_blank.
      by rewrite dropBlanks_spaceCapitals.
Qed.

(** ** Taking back what was added *)

Lemma firstHit_at {A R} (g : A -> option (R * A)) (l1 : list A) (x x' : A) (r : R)
    (l2 : list A) :
  Forall (fun y => g y = None) l1 -> g x = Some (r, x') ->
  firstHit g (l1 ++ x :: l2) = Some (r, l1 ++ x' :: l2).
Proof.
  intros Hl1 Hx. induction Hl1 as [|y l1 Hy _ IH]; simpl.
  - by rewrite Hx.
  - by rewrite Hy, IH.
Qed.

Lemma removeHere_spliceIn (node : Node) (l : list Node) (z : Z) :
  id node ∉ id <$> l -> removeHere (id node) (spliceIn l z node) = Some (node, l).
Proof.
  intros Hfresh. unfold spliceIn. cbv zeta.
  generalize (Z.to_nat (if bool_decide (z < 0)%Z
                        then Z.max (Z.of_nat (length l) + z) 0
                        else Z.min z (Z.of_nat (length l)))). intros k.
  unfold removeHere.
  assert (list_find (fun n => id n = id node) (take k l ++ node :: drop k l)
          = Some (length (take k l), node)) as ->.
  { apply list_find_Some. split_and!; [by apply list_lookup_middle|done|].
    intros j y Hy Hj Hid. apply Hfresh. rewrite <- Hid.
    rewrite lookup_app_l in Hy by done.
    apply lookup_take_Some in Hy as [Hy _].
    apply list_elem_of_fmap_2. eapply list_elem_of_lookup_2, Hy. }
  by rewrite delete_middle, take_drop.
Qed.

Lemma mutateNode_id (i : string) (f : Node -> Node) (n : Node) : forall r n',
  (forall m, id (f m) = id m) -> mutateNode i f n = Some (r, n') -> id n' = id n.
Proof.
  intros r n' Hf. rewrite mutateNode_eq. case_bool_decide; [by intros [= <- <-]|].
  destruct (firstHit _ _) as [[r0 cs']|]; [|done]. by intros [= <- <-].
Qed.

Lemma top_ids_absent (i : string) (l : list Node) : i ∉ ids l -> i ∉ id <$> l.
Proof.
  intros Hi (x & -> & Hx)%list_elem_of_fmap. by apply Hi, elem_of_ids_top.
Qed.

Lemma removeBelow_mutateNode (parentId : string) (node : Node) (index : Index)
    (n : Node) : forall r n',
  mutateNode parentId (adopt node index) n = Some (r, n') ->
  id node ∉ id <$> subtree n -> is_Some (children r) ->
  removeBelow (id node) n' = Some (node, n).
Proof.
  induction n as [j t q|j t q cs IH] using Node_ind; intros r n';
    rewrite mutateNode_eq; case_bool_decide as Hid.
  - by intros [= <- <-] _ [? [=]].
  - done.
  - intros [= <- <-] Hfresh _. rewrite ids_subtree_Some in Hfresh.
    unfold adopt. rewrite childrenOrEmpty_node. unfold setChildren.
    cbn [removeBelow children id toolId params].
    rewrite removeHere_spliceIn by (apply top_ids_absent; set_solver). done.
  - rewrite childrenOrEmpty_node.
    destruct (firstHit _ cs) as [[r0 cs']|] eqn:Hfh; [|done].
    intros [= <- <-] Hfresh Hr. rewrite ids_subtree_Some in Hfresh.
    apply firstHit_Some in Hfh as (l1 & x & x' & l2 & -> & -> & Hl1 & Hx).
    apply Forall_app in IH as [_ [IHx _]%Forall_cons_1].
    rewrite ids_app, ids_cons in Hfresh.
    assert (id x' = id x) as Hidx by (by eapply mutateNode_id; [|exact Hx]).
    unfold setChildren. cbn [removeBelow children id toolId params].
    assert (removeHere (id node) (l1 ++ x' :: l2) = None) as ->.
    { apply removeHere_None. rewrite fmap_app, fmap_cons, Hidx.
      intros Hin. apply Hfresh. rewrite ids_subtree.
      apply elem_of_app in Hin as [Hin|Hin].
      - apply elem_of_cons. right. apply elem_of_app. left.
        apply list_elem_of_fmap in Hin as (y & -> & Hy). by apply elem_of_ids_top.
      - apply elem_of_cons in Hin as [Hin|Hin]; [set_solver|].
        apply elem_of_cons. right. apply elem_of_app. right.
        apply elem_of_cons. right. apply elem_of_app. right.
        apply list_elem_of_fmap in Hin as (y & -> & Hy). by apply elem_of_ids_top. }
    rewrite (firstHit_at _ l1 x' x node l2); [done| |].
    + apply Forall_forall. intros y Hy. apply removeBelow_absent.
      intros Hin. apply Hfresh. apply elem_of_cons. right. apply elem_of_app. left.
      apply list_elem_of_fmap in Hin as (m & -> & Hm).
      apply list_elem_of_fmap_2, elem_of_nodes. exists y. split; [done|].
      rewrite subtree_eq. by right.
    + apply (IHx r0 x' Hx); [|done]. set_solver.
Qed.

Lemma removeNode_insertNode (node : Node) (parentId : string) (index : Index)
    (t : list Node) :
  id node ∉ ids t ->
  isRoot parentId = true \/
    (exists p, getNode t parentId = Some p /\ is_Some (children p)) ->
  removeNode (id node) (insertNode node parentId index t) = Some (node, t).
Proof.
  intros Hfresh Hpar. unfold insertNode, removeNode.
  destruct (isRoot parentId) eqn:Hroot.
  { by rewrite removeHere_spliceIn by by apply top_ids_absent. }
  destruct Hpar as [?|(p & Hget & Hp)]; [done|]. rewrite Hget.
  destruct (mutate_getNode t parentId (adopt node index) p Hget) as [t' Hmut].
  rewrite Hmut.
  apply firstHit_Some in Hmut as (l1 & x & x' & l2 & -> & -> & Hl1 & Hx).
  rewrite ids_app, ids_cons in Hfresh.
  assert (id x' = id x) as Hidx by (by eapply mutateNode_id; [|exact Hx]).
  assert (removeHere (id node) (l1 ++ x' :: l2) = None) as ->.
  { apply removeHere_None. rewrite fmap_app, fmap_cons, Hidx.
    intros Hin. apply Hfresh. rewrite ids_subtree.
    apply elem_of_app in Hin as [Hin|Hin].
    - apply elem_of_app. left.
      apply list_elem_of_fmap in Hin as (y & -> & Hy). by apply elem_of_ids_top.
    - apply elem_of_cons in Hin as [Hin|Hin]; [set_solver|].
      apply elem_of_app. right. apply elem_of_app. right.
      apply list_elem_of_fmap in Hin as (y & -> & Hy). by apply elem_of_ids_top. }
  apply firstHit_at.
  - apply Forall_forall. intros y Hy. apply removeBelow_absent.
    intros Hin. apply Hfresh. apply elem_of_app. left.
    apply list_elem_of_fmap in Hin as (m & -> & Hm).
    apply list_elem_of_fmap_2, elem_of_nodes. exists y. split; [done|].
    rewrite subtree_eq. by right.
  - apply (removeBelow_mutateNode parentId node index x p x' Hx); [set_solver|done].
Qed.

(** X19.  Deleting a node right after [addNode] made it gives the state back
    as it was, when its id was in use nowhere and its parent is the root or
    a node that had a [children] array. *)
Theorem deleteNode_undoes_addNode (s : State) (tool parentId fresh : string) :
  fresh ∉ ids (tree s) -> fresh ∉ collapsed s -> fresh ∉ expanded s ->
  (isRoot parentId = false ->
   forall p, getNode (tree s) parentId = Some p -> is_Some (children p)) ->
  deleteNode fresh true (addNode tool parentId fresh s) = s.
Proof.
  intros Hfresh Hc He Hpar. unfold addNode.
  destruct (lookupTool tool) as [def|].
  2:{ unfold deleteNode. by rewrite (proj2 (getNode_None _ _) Hfresh). }
  assert (id (newNode def fresh) = fresh) as Hid by by destruct def.
  assert (collapsed s ∖ {[fresh]} = collapsed s) as Hc' by set_solver.
  assert (expanded s ∖ {[fresh]} = expanded s) as He' by set_solver.
  assert ((isRoot parentId = true \/
           exists p, getNode (tree s) parentId = Some p /\ is_Some (children p)) \/
          insertNode (newNode def fresh) parentId Infinity (tree s) = tree s)
    as [Hres|Hsame].
  { unfold insertNode. destruct (isRoot parentId) eqn:Hroot; [left; by left|].
    destruct (getNode (tree s) parentId) as [p|] eqn:Hget; [|by right].
    left. right. exists p. split; [done|]. by apply Hpar. }
  - pose proof (removeNode_insertNode (newNode def fresh) parentId Infinity (tree s))
      as Hrm.
    rewrite Hid in Hrm. specialize (Hrm Hfresh Hres).
    unfold deleteNode. cbn [tree setTree collapsed expanded targetParentId showGCode].
    rewrite Hrm, Hc', He'.
    destruct (getNode _ fresh) eqn:Hget; [by destruct s|].
    apply getNode_None in Hget. apply removeNode_Some in Hrm as (_ & Hin & _).
    apply (list_elem_of_fmap_2 id) in Hin. rewrite Hid in Hin. done.
  - rewrite Hsame.
    unfold deleteNode. cbn [tree setTree].
    rewrite (proj2 (getNode_None _ _) Hfresh). by destruct s.
Qed.

(** ** The walk with a callback that keeps a result *)

Lemma untilTrue_firstSome {S A B} (f : A -> S -> S * bool) (w : A -> option B)
    (g : B -> S) (l : list A) (s : S) :
  Forall (fun x => forall s, f x s = match w x with
                                     | Some r => (g r, true)
                                     | None => (s, false)
                                     end) l ->
  untilTrue f l s = match firstSome w l with
                    | Some r => (g r, true)
                    | None => (s, false)
                    end.
Proof.
  induction 1 as [|x l Hx _ IH]; simpl; [done|].
  rewrite Hx. by destruct (w x).
Qed.

Lemma visitNode_walkNode {S} (fn : Node -> option Node -> bool)
    (g : Node * option Node -> S) (n : Node) : forall p s,
  visitNode (fun m q s => if fn m q then (g (m, q), true) else (s, false)) p n s
  = match walkNode fn p n with
    | Some r => (g r, true)
    | None => (s, false)
    end.
Proof.
  induction n as [j t q|j t q cs IH] using Node_ind; intros p s;
    cbn [visitNode walkNode children]; destruct (fn _ p); try done.
  apply untilTrue_firstSome. eapply Forall_impl; [exact IH|].
  intros c Hc s'. apply Hc.
Qed.

Lemma walkWith_walk {S} (fn : Node -> option Node -> bool)
    (g : Node * option Node -> S) (t : list Node) (p : option Node) (s : S) :
  walkWith t (fun m q s => if fn m q then (g (m, q), true) else (s, false)) p s
  = match walk t fn p with
    | Some r => (g r, true)
    | None => (s, false)
    end.
Proof.
  unfold walkWith, walk. apply untilTrue_firstSome, Forall_forall.
  intros c _ s'. apply visitNode_walkNode.
Qed.

(** X20.  [getNode] and [getParent] as they are written, with a callback
    that stores its find in a variable and stops the walk, return the first
    hit of the walk in document order: the node, and the parent the walk
    was at. *)
Theorem lookups_by_walk (t : list Node) (i : string) :
  getNodeByWalk t i = getNode t i /\ getParentByWalk t i = getParent t i.
Proof.
  unfold getNodeByWalk, getParentByWalk, getNode, getParent. split.
  - rewrite (walkWith_walk (hasId i) (fun r => Some (fst r))).
    by destruct (walk t (hasId i) None) as [[??]|].
  - rewrite (walkWith_walk (hasId i) (fun r => snd r)).
    by destruct (walk t (hasId i) None) as [[??]|].
Qed.

(** ** Children of a node that is no container *)

(** X21.  The emitter never looks at the children of a node whose tool is
    not a container: whatever stands below it, for instance after
    [insertNode] was given its id as parent, the lines and the context
    that [emitNode] returns are the same; [countTree] counts those nodes
    all the same. *)
Theorem leaf_children_are_not_emitted (n : Node) (cs : list Node) (ctx : EmitContext) :
  isContainer n = false ->
  emitNode (setChildren n cs) ctx = emitNode n ctx /\
  snd (countTree [setChildren n cs]) = S (length (nodes cs)).
Proof.
  intros Hleaf. split.
  - rewrite !emitNode_eq. unfold setChildren at 1 2. cbn [toolId].
    unfold isContainer in Hleaf.
    destruct (lookupTool (toolId n)) as [[def|]|] eqn:Hdef; [|done..].
    apply lookupTool_Entry, TOOL_BY_ID_Some in Hdef as [Hin _].
    tool_cases Hin; try discriminate Hleaf; reflexivity.
  - unfold countTree.
    rewrite (walkWith_never _
      (fun n s => let '(ops, total) := s in
                  (if isContainer n then ops else S ops, S total)))
      by (by intros m p [ops total]).
    cbn [fst]. rewrite (count_foldl _ 0 0). cbn [snd].
    rewrite nodes_cons, subtree_eq, childrenOrEmpty_setChildren.
    change (nodes []) with (@nil Node). by rewrite app_nil_r.
Qed.

(** ** More instances on the demo forest *)

Lemma op_f1_in_seed : "op_f1" ∈ ids seedTree.
Proof. rewrite ids_seedTree. compute_done. Defined.

Lemma op_loop_in_seed : "op_loop" ∈ ids seedTree.
Proof. rewrite ids_seedTree. compute_done. Defined.

Lemma op_x_fresh : "op_x" ∉ ids seedTree.
Proof. rewrite ids_seedTree. compute_done. Defined.

Lemma eachContainer_seedTree : eachContainer seedTree = [seedFolder; seedLoop].
Proof. reflexivity. Defined.

Lemma unknown_id_changes_nothing_seed :
  ("op_gone" ∉ ids (tree seedState)) /\
  removeNode "op_gone" (tree seedState) = None /\
  (forall target index, moveNode "op_gone" target index seedState = seedState) /\
  (forall ok, deleteNode "op_gone" ok seedState = seedState) /\
  (forall patch, updateParams "op_gone" patch seedState = seedState) /\
  (forall dir, reorderSibling "op_gone" dir seedState = seedState).
Proof.
  split; [exact op_gone_fresh|].
  apply (unknown_id_changes_nothing seedState "op_gone" op_gone_fresh).
Defined.

Lemma insertNode_then_getNode_seed :
  let t' := insertNode (rapidMove "op_x") "op_f1" Infinity seedTree in
  ("op_f1" ∈ ids seedTree) /\
  NoDup ((id <$> subtree (rapidMove "op_x")) ++ ids seedTree) /\
  ids t' ≡ₚ (id <$> subtree (rapidMove "op_x")) ++ ids seedTree /\
  NoDup (ids t') /\
  (forall m, m ∈ subtree (rapidMove "op_x") -> getNode t' (id m) = Some m) /\
  (forall d, d ∈ ids seedTree -> is_Some (getNode t' d)).
Proof.
  cbv zeta.
  assert (NoDup ((id <$> subtree (rapidMove "op_x")) ++ ids seedTree)) as Hnd
    by compute_done.
  split; [exact op_f1_in_seed|]. split; [exact Hnd|].
  destruct (insertNode_then_getNode (rapidMove "op_x") "op_f1" Infinity seedTree
              (or_intror op_f1_in_seed)) as [Hperm Hrest].
  split; [exact Hperm|]. exact (Hrest Hnd).
Defined.

Lemma moveNode_keeps_nodes_seed :
  let t' := tree (moveNode "op_n1" "op_loop" (Idx 0) seedState) in
  getNode (tree seedState) "op_n1" = Some seedOffset /\
  ("op_loop" ∉ id <$> subtree seedOffset) /\
  ids t' ≡ₚ ids (tree seedState) /\
  NoDup (ids t') /\
  getNode t' "op_n1" = Some seedOffset /\
  exists dest rest,
    removeNode "op_n1" (tree seedState) = Some (seedOffset, rest) /\
    destination rest "op_loop" = Some dest /\
    destination t' "op_loop"
      = Some (spliceIn dest (clampTop (Idx 0) (length dest)) seedOffset).
Proof.
  cbv zeta.
  assert ("op_loop" ∉ id <$> subtree seedOffset) as Hout by compute_done.
  split; [reflexivity|]. split; [exact Hout|].
  apply (moveNode_keeps_nodes seedState "op_n1" "op_loop" (Idx 0) seedOffset);
    [exact seedTree_unique_ids | reflexivity | discriminate
    | right; exact Hout | right; exact op_loop_in_seed].
Defined.

Lemma getParent_spec_seed :
  getParent seedTree "op_n1" = Some seedFolder /\
  (seedFolder ∈ nodes seedTree /\
   exists c, getNode seedTree "op_n1" = Some c /\
             c ∈ childrenOrEmpty seedFolder /\ id c = "op_n1") /\
  getParent seedTree "op_loop" = None /\
  getNode seedTree "op_loop" = Some seedLoop /\
  seedLoop ∈ seedTree.
Proof.
  split; [reflexivity|].
  split; [exact (proj1 (getParent_spec seedTree "op_n1") seedFolder eq_refl)|].
  split; [reflexivity|]. split; [reflexivity|].
  exact (proj2 (getParent_spec seedTree "op_loop") eq_refl seedLoop eq_refl).
Defined.

Lemma buildMoveOptions_accepted_seed :
  let t' := tree (moveNode "op_f1" "op_loop" Infinity seedState) in
  buildMoveOptions (tree seedState) "op_f1" = ["root"; "op_loop"] /\
  (ids t' ≡ₚ ids (tree seedState) /\
   exists dest rest,
     removeNode "op_f1" (tree seedState) = Some (seedFolder, rest) /\
     destination rest "op_loop" = Some dest /\
     destination t' "op_loop" = Some (dest ++ [seedFolder])) /\
  (forall index, moveNode "op_f1" (id seedFolder) index seedState = seedState).
Proof.
  cbv zeta.
  assert (buildMoveOptions (tree seedState) "op_f1" = ["root"; "op_loop"]) as Hopt
    by reflexivity.
  destruct (buildMoveOptions_accepted seedState "op_f1" seedFolder
              seedTree_unique_ids eq_refl ltac:(discriminate)) as [Hin Hout].
  split; [exact Hopt|]. split.
  - apply (Hin "op_loop"). rewrite Hopt. compute_done.
  - intros index. apply (Hout seedFolder index).
    + change (tree seedState) with seedTree. rewrite eachContainer_seedTree. left.
    + rewrite Hopt. compute_done.
Defined.

Lemma reorderSibling_shifts_siblings_seed :
  NoDup (ids (tree seedState)) /\
  siblingList (tree (reorderSibling "op_n2" (-1) seedState)) "op_n2"
    = shift "op_n2" (-1) (siblingList (tree seedState) "op_n2") /\
  ids (tree (reorderSibling "op_n2" (-1) seedState)) ≡ₚ ids (tree seedState).
Proof.
  split; [exact seedTree_unique_ids|].
  apply (reorderSibling_shifts_siblings seedState "op_n2" (-1) seedTree_unique_ids).
Defined.

Lemma shift_places_seed :
  list_find (fun n => id n = "op_n2") [seedOffset; seedTouch] = Some (1, seedTouch) /\
  shift "op_n2" 1 [seedOffset; seedTouch] = [seedOffset; seedTouch] /\
  shift "op_n2" (-1) [seedOffset; seedTouch] !! 0 = Some seedTouch /\
  delete 0 (shift "op_n2" (-1) [seedOffset; seedTouch]) = [seedOffset].
Proof.
  split; [reflexivity|]. split.
  - apply (proj1 (shift_places "op_n2" 1 [seedOffset; seedTouch] 1 seedTouch eq_refl)).
    right. cbn. lia.
  - apply (proj2 (shift_places "op_n2" (-1) [seedOffset; seedTouch] 1 seedTouch eq_refl)).
    cbn. lia.
Defined.

Lemma reorderSibling_round_trip_seed :
  NoDup (ids (tree seedState)) /\
  reorderSibling "op_n2" (-1) seedState <> seedState /\
  reorderSibling "op_n2" (- -1) (reorderSibling "op_n2" (-1) seedState) = seedState.
Proof.
  assert (reorderSibling "op_n2" (-1) seedState <> seedState) as Hchg.
  { intros H. apply (f_equal (fun s => ids (tree s))) in H. vm_compute in H.
    discriminate H. }
  split; [exact seedTree_unique_ids|]. split; [exact Hchg|].
  apply (reorderSibling_round_trip seedState "op_n2" (-1) seedTree_unique_ids Hchg).
Defined.

Lemma updateParams_patches_seed :
  let patch : gmap string string := {[ "offset" := "G55" ]} in
  let t' := tree (updateParams "op_n1" patch seedState) in
  getNode (tree seedState) "op_n1" = Some seedOffset /\
  getNode t' "op_n1"
    = Some (mkNode "op_n1" (toolId seedOffset) (patch ∪ params seedOffset)
              (children seedOffset)) /\
  (forall k, (patch ∪ params seedOffset) !! k
             = match patch !! k with Some v => Some v | None => params seedOffset !! k end) /\
  exists before after,
    nodes (tree seedState) = before ++ seedOffset :: after /\
    ("op_n1" ∉ id <$> before) /\
    own <$> nodes t'
      = (own <$> before)
        ++ ("op_n1", toolId seedOffset, patch ∪ params seedOffset) :: (own <$> after).
Proof.
  cbv zeta. split; [reflexivity|].
  apply (updateParams_patches seedState "op_n1" {[ "offset" := "G55" ]} seedOffset eq_refl).
Defined.

Lemma addNode_appends_seed :
  let def := Entry (mkTool "rapid-move" false
                      (list_to_map [("X", "0"); ("Y", "0"); ("Z", "25")])
                      rapid_move_gcode) in
  let new := newNode def "op_x" in
  let t' := tree (addNode "rapid-move" "op_f1" "op_x" seedState) in
  lookupTool "rapid-move" = Some def /\
  "op_f1" ∈ targetOptions (tree seedState) /\
  ids t' ≡ₚ "op_x" :: ids (tree seedState) /\
  NoDup (ids t') /\
  getNode t' "op_x" = Some new /\
  (exists dest, destination (tree seedState) "op_f1" = Some dest /\
                destination t' "op_f1" = Some (dest ++ [new])) /\
  children new = if isContainer new then Some [] else None.
Proof.
  cbv zeta.
  assert ("op_f1" ∈ targetOptions (tree seedState)) as Hpar.
  { change (targetOptions (tree seedState)) with ("root" :: (id <$> eachContainer seedTree)).
    rewrite eachContainer_seedTree. compute_done. }
  split; [reflexivity|]. split; [exact Hpar|].
  apply (addNode_appends seedState "rapid-move" "op_f1" "op_x" _
           seedTree_unique_ids op_x_fresh eq_refl Hpar).
Defined.

Lemma ids_stay_unique_seed :
  let acts := [ AddNode "rapid-move" "op_f1" "op_x";
                MoveNode "op_x" "op_loop" (Idx 0);
                ReorderSibling "op_x" 1;
                DeleteNode "op_f1" true;
                AddNode "folder" "root" "op_y" ] in
  freshRun acts seedState /\ NoDup (ids (tree (run acts seedState))).
Proof.
  cbv zeta.
  assert (freshRun [ AddNode "rapid-move" "op_f1" "op_x";
                     MoveNode "op_x" "op_loop" (Idx 0);
                     ReorderSibling "op_x" 1;
                     DeleteNode "op_f1" true;
                     AddNode "folder" "root" "op_y" ] seedState) as Hfresh.
  { cbn [freshRun freshFor]. split; [exact op_x_fresh|].
    split; [exact I|]. split; [exact I|]. split; [exact I|].
    split; [|exact I]. compute_done. }
  split; [exact Hfresh|].
  apply (ids_stay_unique _ seedState seedTree_unique_ids Hfresh).
Defined.

Lemma while_index_counts_blocks_seed :
  let ctx := createEmitContext 0 1000 0 in
  let p := ifBlock "op_a" [seedLoop] in
  toolId seedLoop = "while-block" /\ isContainer p = true /\
  children p = Some ([] ++ seedLoop :: []) /\
  head (rawLines seedLoop ctx) = Some "WHILE [#100 LT 3] DO1" /\
  head (rawLines seedLoop (indented ctx 1)) = Some "WHILE [#100 LT 3] DO2" /\
  rawLines seedLoop ctx
    = "WHILE [#100 LT 3] DO1" :: emitChildren seedLoop ctx 1 ++ [ "END1"; "" ] /\
  rawLines seedLoop (indented ctx 1)
    = "WHILE [#100 LT 3] DO2"
      :: emitChildren seedLoop (indented ctx 1) 1 ++ [ "END2"; "" ] /\
  fst (emitNode seedLoop (indented ctx 1))
    = atLevel 1 <$> ("WHILE [#100 LT 3] DO2"
                     :: emitChildren seedLoop (indented ctx 1) 1 ++ [ "END2"; "" ]) /\
  exists pre post,
    rawLines p ctx = pre ++ fst (emitNode seedLoop (indented ctx 1)) ++ post.
Proof.
  cbv zeta. split; [reflexivity|]. split; [reflexivity|]. split; [reflexivity|].
  apply (while_index_counts_blocks (ifBlock "op_a" [seedLoop]) seedLoop
           (createEmitContext 0 1000 0) [] [] eq_refl eq_refl eq_refl).
Defined.

Lemma empty_lines_are_indented_seed :
  let ctx := createEmitContext 2 1000 1 in
  rawLines seedOffset ctx !! 1 = Some "" /\
  fst (emitNode seedOffset ctx) !! 1 = Some "    " /\
  last (fst (emitNode seedOffset ctx)) = Some "    ".
Proof.
  cbv zeta. split; [reflexivity|]. split.
  - exact (proj1 (empty_lines_are_indented seedOffset (createEmitContext 2 1000 1))
             1 eq_refl).
  - exact (proj2 (empty_lines_are_indented seedOffset (createEmitContext 2 1000 1))
             _ eq_refl).
Defined.

Lemma toLabel_spec_X :
  let X := Ascii.ascii_of_nat 88 in
  isCapital X = true /\ dropBlanks "X" = "X" /\
  String.length (toLabel "X") = 2 /\
  toLabel "X" = " X" /\
  dropBlanks (toLabel "X") = "X".
Proof.
  cbv zeta.
  destruct (toLabel_spec "X") as (Hlen & Hcap & Hdrop).
  split; [reflexivity|]. split; [reflexivity|]. split; [exact Hlen|].
  split; [exact (Hcap (Ascii.ascii_of_nat 88) "" eq_refl eq_refl)|].
  exact (Hdrop eq_refl).
Defined.

Lemma deleteNode_undoes_addNode_seed :
  ("op_x" ∉ ids (tree seedState)) /\
  deleteNode "op_x" true (addNode "rapid-move" "op_f1" "op_x" seedState) = seedState.
Proof.
  split; [exact op_x_fresh|].
  apply (deleteNode_undoes_addNode seedState "rapid-move" "op_f1" "op_x" op_x_fresh).
  - apply not_elem_of_empty.
  - apply not_elem_of_empty.
  - intros _ p [= <-]. by eexists.
Defined.

Lemma leaf_children_are_not_emitted_seed :
  isContainer seedOffset = false /\
  emitNode (setChildren seedOffset [seedTouch]) (createEmitContext 0 1000 0)
    = emitNode seedOffset (createEmitContext 0 1000 0) /\
  snd (countTree [setChildren seedOffset [seedTouch]]) = 2.
Proof.
  split; [reflexivity|].
  apply (leaf_children_are_not_emitted seedOffset [seedTouch]
           (createEmitContext 0 1000 0) eq_refl).
Defined.
